(** * Closed-loop fan speed regulator (modules/fan/fan.c)

    A shallow embedding of the fan module of the STM32F429 discovery
    projects: tachometer period capture in the EXTI callback, period to RPM
    conversion, the median filter the RPM is fed through, the PI controller
    with conditional integration, and the PWM compare value written to TIM9.

    Conventions:
    - [uint32_t] values are integers in [0, 2^32); every C operation on them
      is written with its reduction modulo 2^32.
    - [float] values are IEEE-754 binary32 numbers ([spec_float] at precision
      24 and maximal exponent 128), each C operation being one correctly
      rounded operation (round to nearest, ties to even).
    - The module state (the [static] variables of fan.c, the TIM9 registers
      it writes and the state of the median module) is one record threaded
      through a state-and-failure monad; a computation fails where C leaves
      the behaviour undefined (division by zero, a float that does not fit
      the integer it is converted to).
    - Hardware reads ([HAL_GetTick], the TIM2 counter) are arguments. *)

From Stdlib Require Import ZArith Lia Bool.
From Stdlib Require Import Floats.SpecFloat.
From stdpp Require Import base list sorting.

Local Open Scope Z_scope.

(** ** 32-bit unsigned arithmetic *)

Module U32.

Definition modulus : Z := 2 ^ 32.

Definition wrap (z : Z) : Z := z mod modulus.

Definition in_range (z : Z) : Prop := 0 <= z < modulus.

Definition add (a b : Z) : Z := wrap (a + b).
Definition sub (a b : Z) : Z := wrap (a - b).
Definition mul (a b : Z) : Z := wrap (a * b).

(** Unsigned division; dividing by zero is undefined in C. *)
Definition div (a b : Z) : option Z :=
  if b =? 0 then None else Some (a / b).

End U32.

(** ** IEEE-754 binary32 arithmetic *)

Module F32.

Definition prec : Z := 24.
Definition emax : Z := 128.

Definition add : spec_float -> spec_float -> spec_float := SFadd prec emax.
Definition sub : spec_float -> spec_float -> spec_float := SFsub prec emax.
Definition mul : spec_float -> spec_float -> spec_float := SFmul prec emax.
Definition div : spec_float -> spec_float -> spec_float := SFdiv prec emax.

(** [a < b] and [a <= b]; both are false when an operand is a NaN. *)
Definition ltb : spec_float -> spec_float -> bool := SFltb.
Definition leb : spec_float -> spec_float -> bool := SFleb.

(** Conversion [(float)n] of an unsigned integer. *)
Definition of_u32 (n : Z) : spec_float := binary_normalize prec emax n 0 false.

(** Integral part of a finite float, rounded toward zero. *)
Definition trunc (x : spec_float) : option Z :=
  match x with
  | S754_zero _ => Some 0
  | S754_finite s m e => Some (cond_Zopp s (Z.shiftl (Zpos m) e))
  | S754_infinity _ | S754_nan => None
  end.

(** Conversion [(uint32_t)x]: undefined unless the integral part fits. *)
Definition to_u32 (x : spec_float) : option Z :=
  match trunc x with
  | Some z => if (0 <=? z) && (z <? U32.modulus) then Some z else None
  | None => None
  end.

(** The literals [0.0f] and [100.0f]. *)
Definition zero : spec_float := S754_zero false.
Definition hundred : spec_float := S754_finite false 13107200 (-17).

End F32.

(** *** Shapes of binary32 values

    Predicates used to follow magnitudes through the operations. *)

(** Number of bits of a mantissa. *)
Definition digits (m : positive) : Z := Zpos (digits2_pos m).

(** Not a NaN, and at most 24 bits of mantissa when finite: what every
    operation returns unless it returns a NaN. *)
Definition shaped (x : spec_float) : Prop :=
  match x with
  | S754_nan => False
  | S754_finite _ m _ => digits m <= 24
  | _ => True
  end.

(** Zero, or finite with at most 24 bits of mantissa and an exponent of at
    most [B - 24]: the magnitude is below [2 ^ B]. *)
Definition below (B : Z) (x : spec_float) : Prop :=
  match x with
  | S754_zero _ => True
  | S754_finite _ m e => digits m <= 24 /\ e <= B - 24
  | _ => False
  end.

(** Sign bit clear, or a zero of either sign. *)
Definition nonneg (x : spec_float) : Prop :=
  match x with
  | S754_zero _ => True
  | S754_finite s _ _ | S754_infinity s => s = false
  | S754_nan => False
  end.

(** The sign bit of a value that is not a NaN. *)
Definition has_sign (sx : bool) (x : spec_float) : Prop :=
  match x with
  | S754_zero s | S754_infinity s | S754_finite s _ _ => s = sx
  | S754_nan => False
  end.

(** ** The median module (median/median.h)

    fan.c uses the median module through a single call,
    [median_get_median(sample)], which has access to the module's private
    window.  The fan module is written against this interface. *)

Class MedianModule := {
  median_t : Type;
  median_get_median : Z -> median_t -> Z * median_t
}.

(** Modelled from the spec: the median module itself (median/median.c) is
    missing from the sources.  Following the data model and the MedianFilter
    contract: a fixed-capacity circular buffer of the last N samples plus a
    write cursor; [insert] adds one sample, overwriting the oldest entry
    once the buffer is full; [median] returns the middle value of the
    current contents sorted by value, over however many samples exist
    before the buffer first fills.  For an even number [k] of samples the
    element of rank [k / 2] of the sorted contents is taken. *)
Module Median.

Record window := {
  buf : list Z;
  cursor : nat;
  count : nat
}.

Definition capacity (w : window) : nat := length (buf w).

Definition init (N : nat) : window :=
  {| buf := replicate N 0; cursor := 0; count := 0 |}.

Definition insert (x : Z) (w : window) : window :=
  {| buf := <[cursor w := x]> (buf w);
     cursor := (S (cursor w) mod capacity w)%nat;
     count := Nat.min (capacity w) (S (count w)) |}.

Definition contents (w : window) : list Z := take (count w) (buf w).

Definition middle (l : list Z) : Z :=
  nth (length l / 2)%nat (merge_sort Z.le l) 0.

Definition median (w : window) : Z := middle (contents w).

(** [median()] as an operation on the window: a read. *)
Definition read (w : window) : Z * window := (median w, w).

(** The call fan.c makes: insert the sample, then read the median. *)
Definition get_median (x : Z) (w : window) : Z * window :=
  read (insert x w).

Definition inserts (xs : list Z) (w : window) : window :=
  foldl (fun w x => insert x w) w xs.

(** Rank oracle: [m] is a median of [l] when it occurs in [l] and at most
    half of the samples lie strictly on either side of it. *)
Definition count_lt (m : Z) (l : list Z) : nat :=
  length (filter (fun x => x < m) l).
Definition count_gt (m : Z) (l : list Z) : nat :=
  length (filter (fun x => m < x) l).
Definition is_median (m : Z) (l : list Z) : Prop :=
  m ∈ l /\ (2 * count_lt m l <= length l)%nat
        /\ (2 * count_gt m l <= length l)%nat.

End Median.

#[export] Instance spec_median : MedianModule := {|
  median_t := Median.window;
  median_get_median := Median.get_median
|}.

(** Modelled from the spec: the most recent [N] samples of a history, or
    all of them when there are fewer; the samples the data model says the
    median is computed over. *)
Definition most_recent (N : nat) (ys : list Z) : list Z :=
  drop (length ys - N) ys.

(** The samples of a full window from the oldest to the newest: the write
    cursor is on the oldest one. *)
Definition chronological (w : Median.window) : list Z :=
  drop (Median.cursor w) (Median.buf w)
  ++ take (Median.cursor w) (Median.buf w).

(** A window of capacity [N] that holds [N] samples. *)
Definition window_full (N : nat) (w : Median.window) : Prop :=
  length (Median.buf w) = N /\ Median.count w = N
  /\ (Median.cursor w < N)%nat.

(** ** The fan module *)

Section Fan.

Context `{MedianModule}.

(** The [static] variables of fan.c, the two TIM9 registers the module
    writes, and the state of the median module. *)
Record fan_state := {
  g_fan_tim9_period : Z;      (* g_fan_tim9_handle_struct.Init.Period *)
  g_fan_tim9_ccr1 : Z;        (* TIM9 capture/compare register 1 *)
  g_u32_ticks_last : Z;
  g_u32_time_diff : Z;
  g_u32_cpu_ticks_now : Z;
  g_u32_target_rpm : Z;
  f_esum : spec_float;        (* static local of fan_update_pi_controller *)
  g_median : median_t
}.

Definition set_tim9_period (v : Z) (s : fan_state) : fan_state :=
  {| g_fan_tim9_period := v;
     g_fan_tim9_ccr1 := g_fan_tim9_ccr1 s;
     g_u32_ticks_last := g_u32_ticks_last s;
     g_u32_time_diff := g_u32_time_diff s;
     g_u32_cpu_ticks_now := g_u32_cpu_ticks_now s;
     g_u32_target_rpm := g_u32_target_rpm s;
     f_esum := f_esum s;
     g_median := g_median s |}.

Definition set_tim9_ccr1 (v : Z) (s : fan_state) : fan_state :=
  {| g_fan_tim9_period := g_fan_tim9_period s;
     g_fan_tim9_ccr1 := v;
     g_u32_ticks_last := g_u32_ticks_last s;
     g_u32_time_diff := g_u32_time_diff s;
     g_u32_cpu_ticks_now := g_u32_cpu_ticks_now s;
     g_u32_target_rpm := g_u32_target_rpm s;
     f_esum := f_esum s;
     g_median := g_median s |}.

Definition set_ticks_last (v : Z) (s : fan_state) : fan_state :=
  {| g_fan_tim9_period := g_fan_tim9_period s;
     g_fan_tim9_ccr1 := g_fan_tim9_ccr1 s;
     g_u32_ticks_last := v;
     g_u32_time_diff := g_u32_time_diff s;
     g_u32_cpu_ticks_now := g_u32_cpu_ticks_now s;
     g_u32_target_rpm := g_u32_target_rpm s;
     f_esum := f_esum s;
     g_median := g_median s |}.

Definition set_time_diff (v : Z) (s : fan_state) : fan_state :=
  {| g_fan_tim9_period := g_fan_tim9_period s;
     g_fan_tim9_ccr1 := g_fan_tim9_ccr1 s;
     g_u32_ticks_last := g_u32_ticks_last s;
     g_u32_time_diff := v;
     g_u32_cpu_ticks_now := g_u32_cpu_ticks_now s;
     g_u32_target_rpm := g_u32_target_rpm s;
     f_esum := f_esum s;
     g_median := g_median s |}.

Definition set_cpu_ticks_now (v : Z) (s : fan_state) : fan_state :=
  {| g_fan_tim9_period := g_fan_tim9_period s;
     g_fan_tim9_ccr1 := g_fan_tim9_ccr1 s;
     g_u32_ticks_last := g_u32_ticks_last s;
     g_u32_time_diff := g_u32_time_diff s;
     g_u32_cpu_ticks_now := v;
     g_u32_target_rpm := g_u32_target_rpm s;
     f_esum := f_esum s;
     g_median := g_median s |}.

Definition set_target_rpm (v : Z) (s : fan_state) : fan_state :=
  {| g_fan_tim9_period := g_fan_tim9_period s;
     g_fan_tim9_ccr1 := g_fan_tim9_ccr1 s;
     g_u32_ticks_last := g_u32_ticks_last s;
     g_u32_time_diff := g_u32_time_diff s;
     g_u32_cpu_ticks_now := g_u32_cpu_ticks_now s;
     g_u32_target_rpm := v;
     f_esum := f_esum s;
     g_median := g_median s |}.

Definition set_esum (v : spec_float) (s : fan_state) : fan_state :=
  {| g_fan_tim9_period := g_fan_tim9_period s;
     g_fan_tim9_ccr1 := g_fan_tim9_ccr1 s;
     g_u32_ticks_last := g_u32_ticks_last s;
     g_u32_time_diff := g_u32_time_diff s;
     g_u32_cpu_ticks_now := g_u32_cpu_ticks_now s;
     g_u32_target_rpm := g_u32_target_rpm s;
     f_esum := v;
     g_median := g_median s |}.

Definition set_median (v : median_t) (s : fan_state) : fan_state :=
  {| g_fan_tim9_period := g_fan_tim9_period s;
     g_fan_tim9_ccr1 := g_fan_tim9_ccr1 s;
     g_u32_ticks_last := g_u32_ticks_last s;
     g_u32_time_diff := g_u32_time_diff s;
     g_u32_cpu_ticks_now := g_u32_cpu_ticks_now s;
     g_u32_target_rpm := g_u32_target_rpm s;
     f_esum := f_esum s;
     g_median := v |}.

(** *** State-and-failure monad *)

Definition M (A : Type) : Type := fan_state -> option (A * fan_state).

Definition ret {A} (a : A) : M A := fun s => Some (a, s).

Definition bind {A B} (c : M A) (k : A -> M B) : M B :=
  fun s => match c s with
           | Some (a, s') => k a s'
           | None => None
           end.

Definition get : M fan_state := fun s => Some (s, s).

Definition modify (f : fan_state -> fan_state) : M unit :=
  fun s => Some (tt, f s).

(** An operation C leaves undefined aborts the computation. *)
Definition defined {A} (o : option A) : M A :=
  fun s => match o with Some a => Some (a, s) | None => None end.

(** The state a computation leaves behind (the state it started from if
    it fails). *)
Definition exec {A} (c : M A) (s : fan_state) : fan_state :=
  match c s with Some (_, s') => s' | None => s end.

Notation "x <- c ;; k" := (bind c (fun x => k))
  (at level 100, c at next level, right associativity).
Notation "c ;;; k" := (bind c (fun _ => k))
  (at level 100, right associativity).

(** *** Constants *)

(** [GPIO_PIN_6] of the vendor HAL, the tachometer pin. *)
Definition FAN_TACHO_OUTPUT : Z := 64.

(** [g_f_ta = 0.02f], [g_f_kp = 0.04f], [g_f_ki = 0.03f]. *)
Definition g_f_ta : spec_float := S754_finite false 10737418 (-29).
Definition g_f_kp : spec_float := S754_finite false 10737418 (-28).
Definition g_f_ki : spec_float := S754_finite false 16106127 (-29).

(** *** fan_control_init *)

(** Power-on contents of the static storage (zero initialised), around
    the state of the median module. *)
Definition power_on (m : median_t) : fan_state :=
  {| g_fan_tim9_period := 0;
     g_fan_tim9_ccr1 := 0;
     g_u32_ticks_last := 0;
     g_u32_time_diff := 0;
     g_u32_cpu_ticks_now := 0;
     g_u32_target_rpm := 0;
     f_esum := F32.zero;
     g_median := m |}.

(** fan_timer_init: period 400 - 1, initial pulse (400 / 100) * 50. *)
Definition fan_timer_init (s : fan_state) : fan_state :=
  set_tim9_ccr1 (U32.mul (400 / 100) 50)
    (set_tim9_period (U32.sub 400 1) s).

(** fan_gpio_init, fan_init_interrupt and fan_tacho_timer_init only
    configure peripherals that are not part of the state. *)
Definition fan_control_init (s : fan_state) : fan_state :=
  fan_timer_init s.

(** *** fan_get_filtered_rpm *)

(** The staleness test [(HAL_GetTick() - g_u32_cpu_ticks_now) > 1000u]. *)
Definition stale (tick : Z) (s : fan_state) : bool :=
  1000 <? U32.sub tick (g_u32_cpu_ticks_now s).

(** The local [u32_rpm = (60u * 1000000ul) / (2u * g_u32_time_diff)]. *)
Definition u32_rpm (time_diff : Z) : option Z :=
  U32.div (U32.mul 60 1000000) (U32.mul 2 time_diff).

(** The call [median_get_median(sample)] on the module's window; the
    result comes back as a [uint32_t]. *)
Definition call_median (sample : Z) : M Z :=
  fun s =>
    let r := median_get_median sample (g_median s) in
    Some (U32.wrap (fst r), set_median (snd r) s).

Definition fan_get_filtered_rpm (tick : Z) : M Z :=
  s <- get ;;
  if stale tick s then ret 0
  else if g_u32_time_diff s =? 0 then ret 0
  else
    rpm <- defined (u32_rpm (g_u32_time_diff s)) ;;
    call_median rpm.

(** *** Target *)

Definition fan_change_target_rpm (target_rpm : Z) (s : fan_state) : fan_state :=
  set_target_rpm target_rpm s.

Definition fan_get_target_rpm (s : fan_state) : Z := g_u32_target_rpm s.

(** *** fan_update_pi_controller *)

(** [f_error = (float)g_u32_target_rpm - (float)fan_get_filtered_rpm()]. *)
Definition f_error (target rpm : Z) : spec_float :=
  F32.sub (F32.of_u32 target) (F32.of_u32 rpm).

(** [f_output = g_f_kp * f_error + g_f_ki * f_esum], before limiting. *)
Definition f_output (target rpm : Z) (esum : spec_float) : spec_float :=
  F32.add (F32.mul g_f_kp (f_error target rpm)) (F32.mul g_f_ki esum).

(** The if / else-if / else of the controller: the output that is
    applied, and the integral after the cycle. *)
Definition pi_limit (err out esum : spec_float) : spec_float * spec_float :=
  if F32.ltb F32.hundred out then (F32.hundred, esum)
  else if F32.ltb out F32.zero then (F32.zero, esum)
  else (out, F32.add esum (F32.mul err g_f_ta)).

(** The output applied in a cycle and the integral after it, from the
    target, the filtered RPM and the integral before it. *)
Definition limited_output (target rpm : Z) (esum : spec_float) : spec_float :=
  fst (pi_limit (f_error target rpm) (f_output target rpm esum) esum).

Definition next_esum (target rpm : Z) (esum : spec_float) : spec_float :=
  snd (pi_limit (f_error target rpm) (f_output target rpm esum) esum).

(** The compare value [(Period + 1u) * f_output / 100.0f], as a float. *)
Definition pwm_compare (period : Z) (out : spec_float) : spec_float :=
  F32.div (F32.mul (F32.of_u32 (U32.add period 1)) out) F32.hundred.

Definition fan_update_pi_controller (tick : Z) : M unit :=
  rpm <- fan_get_filtered_rpm tick ;;
  s <- get ;;
  let err := f_error (g_u32_target_rpm s) rpm in
  let out := f_output (g_u32_target_rpm s) rpm (f_esum s) in
  let '(out', esum') := pi_limit err out (f_esum s) in
  modify (set_esum esum') ;;;
  ccr <- defined (F32.to_u32 (pwm_compare (g_fan_tim9_period s) out')) ;;
  modify (set_tim9_ccr1 ccr).

(** *** HAL_GPIO_EXTI_Callback *)

(** [counter] is the TIM2 counter read by [__HAL_TIM_GET_COUNTER] and
    [tick] the value of [HAL_GetTick()]. *)
Definition HAL_GPIO_EXTI_Callback (gpio_pin counter tick : Z)
    (s : fan_state) : fan_state :=
  if gpio_pin =? FAN_TACHO_OUTPUT then
    let u32_ticks_now := counter in
    set_cpu_ticks_now tick
      (set_ticks_last u32_ticks_now
        (set_time_diff (U32.sub u32_ticks_now (g_u32_ticks_last s)) s))
  else s.

(** *** Reachable states

    The states the module can be in once [fan_control_init] has run:
    any interleaving of target changes, tachometer callbacks, RPM reads
    and controller cycles that do not hit undefined behaviour. *)
Inductive reachable : fan_state -> Prop :=
| reach_init m :
    reachable (fan_control_init (power_on m))
| reach_target s t :
    reachable s -> U32.in_range t ->
    reachable (fan_change_target_rpm t s)
| reach_exti s pin counter tick :
    reachable s -> U32.in_range counter -> U32.in_range tick ->
    reachable (HAL_GPIO_EXTI_Callback pin counter tick s)
| reach_rpm s tick r s' :
    reachable s -> U32.in_range tick ->
    fan_get_filtered_rpm tick s = Some (r, s') ->
    reachable s'
| reach_pi s tick s' :
    reachable s -> U32.in_range tick ->
    fan_update_pi_controller tick s = Some (tt, s') ->
    reachable s'.

(** What the controller relies on from one cycle to the next: the PWM
    period set at initialisation, a 32-bit target and an integral that is
    not a NaN. *)
Definition state_ok (s : fan_state) : Prop :=
  g_fan_tim9_period s = 399
  /\ U32.in_range (g_u32_target_rpm s)
  /\ shaped (f_esum s).

End Fan.

Notation "x <- c ;; k" := (bind c (fun x => k))
  (at level 100, c at next level, right associativity).

(** ** Example states *)

(** The module after [fan_control_init], with a five-sample window. *)
Definition boot_state : fan_state :=
  fan_control_init (power_on (Median.init 5)).

(** A first tachometer edge shortly before the counter rolls over. *)
Definition first_edge_state : fan_state :=
  HAL_GPIO_EXTI_Callback FAN_TACHO_OUTPUT 4294963000 44 boot_state.

(** An edge 2^31 ticks (about 36 minutes) after power-on. *)
Definition restart_state : fan_state :=
  HAL_GPIO_EXTI_Callback FAN_TACHO_OUTPUT 2147483648 2147483 boot_state.

(** An edge 2^31 + 1 ticks after power-on. *)
Definition late_edge_state : fan_state :=
  HAL_GPIO_EXTI_Callback FAN_TACHO_OUTPUT 2147483649 2147483 boot_state.

(** A target of 5000 RPM on a fan that has not turned yet. *)
Definition demand_state : fan_state := fan_change_target_rpm 5000 boot_state.

(** A fan turning at 1000 RPM and read three times ... *)
Definition slow_state : fan_state :=
  exec (fan_get_filtered_rpm 43)
    (exec (fan_get_filtered_rpm 42)
      (exec (fan_get_filtered_rpm 41)
        (HAL_GPIO_EXTI_Callback FAN_TACHO_OUTPUT 31000 40
          (HAL_GPIO_EXTI_Callback FAN_TACHO_OUTPUT 1000 10 boot_state)))).

(** ... then speeding up to 5000 RPM and read once more. *)
Definition speeding_state : fan_state :=
  exec (fan_get_filtered_rpm 47)
    (HAL_GPIO_EXTI_Callback FAN_TACHO_OUTPUT 37000 46 slow_state).

(** Five RPM samples, one of them from a spurious tachometer edge. *)
Definition noisy_samples : list Z := [5000; 4800; 30000000; 5100; 4900].

(** The same five samples at the end of a longer run: twelve inserts into
    a window of five go round the buffer more than twice. *)
Definition noisy_history : list Z :=
  [900; 30000000; 950; 1000; 1100; 1200; 1300] ++ noisy_samples.

(** ** Further invariants of the fan module *)

Section FanInvariants.
Context `{MedianModule}.

(** What the capture side keeps: the three variables written by the EXTI
    callback are 32-bit values. *)
Definition capture_ok (s : fan_state) : Prop :=
  U32.in_range (g_u32_ticks_last s)
  /\ U32.in_range (g_u32_time_diff s)
  /\ U32.in_range (g_u32_cpu_ticks_now s).

End FanInvariants.

(** The value [m * 2 ^ e], scaled by [2 ^ 400] so that it is an integer for
    every exponent a binary32 operation meets. *)
Definition scaled (m e : Z) : Z := m * 2 ^ (e + 400).

(** Finite values have an exponent of at least -149, the exponent of the
    smallest subnormal binary32 number. *)
Definition emin_ok (x : spec_float) : Prop :=
  match x with
  | S754_finite _ _ e => -149 <= e
  | _ => True
  end.

(** A finite value whose magnitude is not above [mc * 2 ^ ec]. *)
Definition at_most (mc ec : Z) (x : spec_float) : Prop :=
  match x with
  | S754_finite _ m e => scaled (Zpos m) e <= scaled mc ec
  | _ => True
  end.

Definition not_neg_zero (x : spec_float) : Prop := x <> S754_zero true.

(** ** The potentiometer module (modules/potis_dma/potis_dma.c)

    The two arrays of the module: [u32_potis_data], which the DMA
    controller fills with the conversions of the two potentiometers in
    turn, and [g_u32_potis_filtered_data], the average per potentiometer.
    The filter is modelled on the buffer as it is when the filter runs.  An
    access outside an array is undefined in C and fails here. *)

Definition ADC_12_BIT_RESOLUTION : Z := 4095.
Definition FILTERED_DATA_ARRAY_LENGTH : Z := 2.
Definition NON_FILTERED_DATA_ARRAY_LENGTH : Z := 200.
Definition POTI_1 : Z := 0.
Definition POTI_2 : Z := 1.

Record potis_state := {
  u32_potis_data : list Z;
  g_u32_potis_filtered_data : list Z
}.

Definition set_filtered_data (f : list Z) (p : potis_state) : potis_state :=
  {| u32_potis_data := u32_potis_data p;
     g_u32_potis_filtered_data := f |}.

(** The arrays as they are declared: 200 raw conversions, two averages. *)
Definition arrays_ok (p : potis_state) : Prop :=
  Z.of_nat (length (u32_potis_data p)) = NON_FILTERED_DATA_ARRAY_LENGTH
  /\ Z.of_nat (length (g_u32_potis_filtered_data p))
     = FILTERED_DATA_ARRAY_LENGTH.

(** [a[i]] read and [a[i] = v]. *)
Definition load (a : list Z) (i : Z) : option Z :=
  if i <? 0 then None else a !! Z.to_nat i.

Definition store (a : list Z) (i v : Z) : option (list Z) :=
  if (0 <=? i) && (i <? Z.of_nat (length a))
  then Some (<[Z.to_nat i := v]> a) else None.

(** [a[i] += x] on [uint32_t]. *)
Definition add_to (a : list Z) (i x : Z) : option (list Z) :=
  old ← load a i; store a i (U32.add old x).

(** [a[i] /= d] on [uint32_t]. *)
Definition divide_by (a : list Z) (i d : Z) : option (list Z) :=
  old ← load a i; q ← U32.div old d; store a i q.

(** The body of the [for] loop of potis_dma_filter_data at index [i]; the
    index is an [int] that is never negative, so [i % 2] is [Z.rem]. *)
Definition filter_step (data : list Z) (acc : option (list Z)) (i : Z)
  : option (list Z) :=
  f ← acc;
  x ← load data i;
  if Z.rem i 2 =? 0 then add_to f POTI_1 x else add_to f POTI_2 x.

Definition potis_dma_filter_data (p : potis_state) : option potis_state :=
  f ← store (g_u32_potis_filtered_data p) POTI_1 0;
  f ← store f POTI_2 0;
  f ← foldl (filter_step (u32_potis_data p)) (Some f)
        (seqZ 0 NON_FILTERED_DATA_ARRAY_LENGTH);
  f ← divide_by f POTI_1 (NON_FILTERED_DATA_ARRAY_LENGTH / 2);
  f ← divide_by f POTI_2 (NON_FILTERED_DATA_ARRAY_LENGTH / 2);
  Some (set_filtered_data f p).

(** [poti_num] is a [uint8_t]: it is never negative. *)
Definition potis_dma_get_val (poti_num : Z) (p : potis_state)
  : option (Z * potis_state) :=
  if 2 <=? poti_num then Some (0, p)
  else
    p' ← potis_dma_filter_data p;
    v ← load (g_u32_potis_filtered_data p') poti_num;
    Some (v, p').

(** The conversions of one potentiometer: every second element of the
    buffer, starting at the potentiometer's index. *)
Fixpoint every_second (l : list Z) : list Z :=
  match l with
  | x :: _ :: l' => x :: every_second l'
  | [x] => [x]
  | [] => []
  end.

Definition channel (poti : Z) (data : list Z) : list Z :=
  every_second (drop (Z.to_nat poti) data).

Definition total (l : list Z) : Z := foldr Z.add 0 l.

(** The average of one potentiometer as the filter computes it: the sum is
    a [uint32_t], and the division is by the constant 200 / 2. *)
Definition average (poti : Z) (data : list Z) : Z :=
  U32.wrap (total (channel poti data)) / 100.

(** The two sums once the loop has run over [l], the first element of [l]
    having an even index iff [even]. *)
Fixpoint accumulate (even : bool) (l : list Z) (a b : Z) : Z * Z :=
  match l with
  | [] => (a, b)
  | x :: l' =>
      if even then accumulate false l' (U32.add a x) b
      else accumulate true l' a (U32.add b x)
  end.

(** ** The fan application (P1_Fan_Control/src/main.c) *)

Definition FAN_MAX_RPM : Z := 5000.

(** The macro [(((adc_value) * (fan_max)) / (adc_max))], used on
    [uint32_t] operands. *)
Definition MAIN_CONVERT_ADC_TO_RPM (adc_value fan_max adc_max : Z)
  : option Z :=
  U32.div (U32.mul adc_value fan_max) adc_max.

Section Application.
Context `{MedianModule}.

(** One pass of the [while (1)] loop of [main]: the state of the fan and
    potentiometer modules before and after, and the two numbers printed on
    the display ("TAR" and "CUR").  [tick_pi] and [tick_lcd] are the values
    of [HAL_GetTick()] in the two calls that read it; tachometer edges
    arrive between passes. *)
Definition main_loop (tick_pi tick_lcd : Z) (st : fan_state * potis_state)
  : option ((Z * Z) * (fan_state * potis_state)) :=
  '(u32_poti_value, p) ← potis_dma_get_val POTI_1 (snd st);
  target ← MAIN_CONVERT_ADC_TO_RPM u32_poti_value FAN_MAX_RPM
             ADC_12_BIT_RESOLUTION;
  let s := fan_change_target_rpm target (fst st) in
  '(_, s) ← fan_update_pi_controller tick_pi s;
  let tar := fan_get_target_rpm s in
  '(cur, s) ← fan_get_filtered_rpm tick_lcd s;
  Some ((tar, cur), (s, p)).

End Application.

(** ** Tachometer interrupts during a pass of the main loop

    The EXTI interrupt preempts [main] at any point.  At the granularity
    of calls this is a sequence of callbacks run before the controller
    cycle of a pass and another one run between the controller cycle and
    the read for the display. *)

(** One interrupt: the pin, the TIM2 counter and [HAL_GetTick()] at that
    moment. *)
Record edge := {
  edge_pin : Z;
  edge_counter : Z;
  edge_tick : Z
}.

Section Interrupts.
Context `{MedianModule}.

Definition run_edges (es : list edge) (s : fan_state) : fan_state :=
  foldl (fun s e =>
           HAL_GPIO_EXTI_Callback (edge_pin e) (edge_counter e) (edge_tick e) s)
        s es.

(** [main_loop] with the callbacks [before] run ahead of the controller
    cycle and the callbacks [between] run ahead of the display read. *)
Definition main_loop_with_edges (tick_pi tick_lcd : Z)
    (before between : list edge) (st : fan_state * potis_state)
  : option ((Z * Z) * (fan_state * potis_state)) :=
  '(u32_poti_value, p) ← potis_dma_get_val POTI_1 (snd st);
  target ← MAIN_CONVERT_ADC_TO_RPM u32_poti_value FAN_MAX_RPM
             ADC_12_BIT_RESOLUTION;
  let s := fan_change_target_rpm target (fst st) in
  let s := run_edges before s in
  '(_, s) ← fan_update_pi_controller tick_pi s;
  let tar := fan_get_target_rpm s in
  let s := run_edges between s in
  '(cur, s) ← fan_get_filtered_rpm tick_lcd s;
  Some ((tar, cur), (s, p)).

(** Two states with the same capture variables. *)
Definition same_capture (s s' : fan_state) : Prop :=
  g_u32_ticks_last s' = g_u32_ticks_last s
  /\ g_u32_time_diff s' = g_u32_time_diff s
  /\ g_u32_cpu_ticks_now s' = g_u32_cpu_ticks_now s.

End Interrupts.

(** ** Further example states *)

(** A fan turning at 1000 RPM: two edges 30000 microseconds apart. *)
Definition turning_state : fan_state :=
  HAL_GPIO_EXTI_Callback FAN_TACHO_OUTPUT 31000 40
    (HAL_GPIO_EXTI_Callback FAN_TACHO_OUTPUT 1000 10 boot_state).

(** The state after one controller cycle at full demand. *)
Definition saturated_state : fan_state :=
  exec (fan_update_pi_controller 2000) demand_state.

(** The fan at 1000 RPM with a target of 1000 RPM. *)
Definition on_target_state : fan_state :=
  fan_change_target_rpm 1000 slow_state.

(** A raw buffer holding 0, 1, ..., 199, and averages left by an earlier
    run of the filter. *)
Definition ramp_state : potis_state :=
  {| u32_potis_data := seqZ 0 200;
     g_u32_potis_filtered_data := [7; 9] |}.

(** A raw buffer with potentiometer 1 at mid scale. *)
Definition half_scale_state : potis_state :=
  {| u32_potis_data := concat (replicate 100 [2048; 4095]);
     g_u32_potis_filtered_data := [0; 0] |}.

(** A tachometer edge 6000 timer ticks after the last edge of
    [turning_state]. *)
Definition speed_up_edge : edge :=
  {| edge_pin := FAN_TACHO_OUTPUT; edge_counter := 37000; edge_tick := 41 |}.

(** * Properties *)

(** ** 32-bit arithmetic *)

Lemma wrap_range z : U32.in_range (U32.wrap z).
Proof. unfold U32.in_range, U32.wrap, U32.modulus. apply Z.mod_pos_bound. lia. Qed.

Lemma wrap_small z : U32.in_range z -> U32.wrap z = z.
Proof. unfold U32.in_range, U32.wrap. intros Hz. now apply Z.mod_small. Qed.

Lemma sub_le a b :
  U32.in_range a -> U32.in_range b -> b <= a -> U32.sub a b = a - b.
Proof.
  unfold U32.in_range, U32.sub, U32.modulus. intros Ha Hb Hle.
  apply wrap_small. unfold U32.in_range, U32.modulus. lia.
Qed.

Lemma sub_gt a b :
  U32.in_range a -> U32.in_range b -> a < b ->
  U32.sub a b = a + U32.modulus - b.
Proof.
  unfold U32.in_range, U32.sub, U32.wrap. intros Ha Hb Hlt.
  replace (a - b) with (a + U32.modulus - b + (-1) * U32.modulus) by ring.
  rewrite Z.mod_add by (unfold U32.modulus; lia).
  apply Z.mod_small. lia.
Qed.

Lemma add_sub a b :
  U32.in_range a -> U32.add b (U32.sub a b) = a.
Proof.
  unfold U32.add, U32.sub, U32.wrap. intros Ha.
  rewrite Zplus_mod_idemp_r. replace (b + (a - b)) with a by ring.
  now apply Z.mod_small.
Qed.

(** ** Period to RPM conversion *)

(** Below 2^31 ticks the doubled period fits 32 bits and the quotient is
    the one of the integers. *)
Lemma u32_rpm_exact p :
  0 < p < 2 ^ 31 -> u32_rpm p = Some (60000000 / (2 * p)).
Proof.
  intros Hp. unfold u32_rpm, U32.div, U32.mul, U32.wrap, U32.modulus.
  rewrite (Z.mod_small (2 * p)) by lia.
  destruct (Z.eqb_spec (2 * p) 0) as [E|_]; [lia|]. reflexivity.
Qed.

Example u32_rpm_6000 : u32_rpm 6000 = Some 5000.
Proof. reflexivity. Qed.

(** From 2^31 ticks on, the doubled period wraps: the divisor is
    [2 * p - 2^32]. *)
Lemma u32_rpm_wrapped p :
  2 ^ 31 <= p < 2 ^ 32 ->
  u32_rpm p = U32.div 60000000 (2 * p - 2 ^ 32).
Proof.
  intros Hp. unfold u32_rpm, U32.mul, U32.wrap, U32.modulus.
  replace (2 * p) with (2 * p - 2 ^ 32 + 1 * 2 ^ 32) at 1 by ring.
  rewrite Z.mod_add by lia.
  rewrite (Z.mod_small (2 * p - 2 ^ 32)) by lia. reflexivity.
Qed.


(** ** Binary32 magnitudes *)

Section Digits.

Lemma digits_size p : digits2_pos p = Pos.size p.
Proof. induction p; simpl; congruence. Qed.

Lemma digits_pos p : 0 < digits p.
Proof. unfold digits. lia. Qed.

Lemma digits_gt p : Zpos p < 2 ^ digits p.
Proof.
  unfold digits. rewrite digits_size.
  pose proof (Pos.size_gt p) as Hgt.
  apply Pos2Z.pos_lt_pos in Hgt. now rewrite Pos2Z.inj_pow in Hgt.
Qed.

Lemma digits_le p : 2 ^ (digits p - 1) <= Zpos p.
Proof.
  unfold digits. rewrite digits_size.
  pose proof (Pos.size_le p) as Hle.
  apply Pos2Z.pos_le_pos in Hle. rewrite Pos2Z.inj_pow in Hle.
  change (Zpos 2) with 2 in Hle. change (Zpos p~0) with (2 * Zpos p) in Hle.
  replace (Zpos (Pos.size p)) with (Z.succ (Zpos (Pos.size p) - 1)) in Hle by lia.
  rewrite Z.pow_succ_r in Hle by lia. lia.
Qed.

(** A number below [2 ^ k] has at most [k] bits. *)
Lemma Zdigits2_bound m k :
  0 <= m -> 0 <= k -> m < 2 ^ k -> Zdigits2 m <= k.
Proof.
  intros Hm Hk Hlt. destruct m as [|p|p]; simpl; [lia| |lia].
  pose proof (digits_le p) as Hle. fold (digits p).
  destruct (Z_lt_le_dec k (digits p)) as [Hbad|]; [|lia].
  assert (2 ^ k <= 2 ^ (digits p - 1)) by (apply Z.pow_le_mono_r; lia).
  lia.
Qed.

Lemma Zdigits2_gt m : 0 <= m -> m < 2 ^ Zdigits2 m.
Proof.
  intros Hm. destruct m as [|p|p]; simpl; [lia| |lia]. apply digits_gt.
Qed.

Lemma Zdigits2_nonneg m : 0 <= Zdigits2 m.
Proof. destruct m; simpl; lia. Qed.

Lemma Zdigits2_succ m : 0 <= m -> Zdigits2 (m + 1) <= Zdigits2 m + 1.
Proof.
  intros Hm. pose proof (Zdigits2_gt m Hm). pose proof (Zdigits2_nonneg m).
  apply Zdigits2_bound; [lia..|].
  rewrite Z.pow_add_r by lia. lia.
Qed.

Lemma Zdigits2_shiftr m n :
  0 <= m -> 0 < n -> Zdigits2 (Z.shiftr m n) <= Z.max 0 (Zdigits2 m - n).
Proof.
  intros Hm Hn. pose proof (Zdigits2_gt m Hm) as Hgt.
  pose proof (Zdigits2_nonneg m).
  rewrite Z.shiftr_div_pow2 by lia.
  assert (0 < 2 ^ n) by (apply Z.pow_pos_nonneg; lia).
  apply Zdigits2_bound; [apply Z.div_pos; lia | lia |].
  apply Z.div_lt_upper_bound; [lia|].
  destruct (Z_lt_le_dec (Zdigits2 m) n).
  - rewrite Z.max_l by lia. simpl.
    assert (2 ^ Zdigits2 m <= 2 ^ n) by (apply Z.pow_le_mono_r; lia). lia.
  - rewrite Z.max_r by lia. rewrite <- Z.pow_add_r by lia.
    now replace (n + (Zdigits2 m - n)) with (Zdigits2 m) by ring.
Qed.

Lemma Zdigits2_mul a b :
  0 <= a -> 0 <= b -> Zdigits2 (a * b) <= Zdigits2 a + Zdigits2 b.
Proof.
  intros Ha Hb. pose proof (Zdigits2_gt a Ha). pose proof (Zdigits2_gt b Hb).
  pose proof (Zdigits2_nonneg a). pose proof (Zdigits2_nonneg b).
  apply Zdigits2_bound; [nia | lia |].
  rewrite Z.pow_add_r by lia. nia.
Qed.

End Digits.

Section Shift.

Lemma shr_1_m mrs : 0 <= shr_m mrs -> shr_m (shr_1 mrs) = Z.shiftr (shr_m mrs) 1.
Proof.
  destruct mrs as [m r s]. simpl. rewrite <- Z.div2_spec.
  destruct m as [|[p|p|]|p]; simpl; try reflexivity; lia.
Qed.

Lemma iter_shr_1_m p : forall mrs,
  0 <= shr_m mrs ->
  shr_m (SpecFloat.iter_pos shr_1 p mrs) = Z.shiftr (shr_m mrs) (Zpos p).
Proof.
  induction p as [p IH|p IH|]; intros mrs Hm; simpl.
  - assert (H1 : 0 <= shr_m (shr_1 mrs)).
    { rewrite shr_1_m by easy. now apply Z.shiftr_nonneg. }
    assert (H2 : 0 <= shr_m (SpecFloat.iter_pos shr_1 p (shr_1 mrs))).
    { rewrite IH by easy. now apply Z.shiftr_nonneg. }
    rewrite IH, IH, shr_1_m by easy.
    rewrite !Z.shiftr_shiftr by lia. f_equal. lia.
  - assert (H2 : 0 <= shr_m (SpecFloat.iter_pos shr_1 p mrs)).
    { rewrite IH by easy. now apply Z.shiftr_nonneg. }
    rewrite IH, IH by easy.
    rewrite Z.shiftr_shiftr by lia. f_equal. lia.
  - now apply shr_1_m.
Qed.

Lemma shr_record_of_loc_m m l : shr_m (shr_record_of_loc m l) = m.
Proof. destruct l as [|[]]; reflexivity. Qed.

(** One normalising shift: the mantissa stays non-negative, ends with at
    most 24 bits, and the exponent is the old one or the canonical one. *)
Lemma shr_fexp_spec m e l :
  0 <= m ->
  let r := shr_fexp F32.prec F32.emax m e l in
  let d := Zdigits2 m in
  0 <= shr_m (fst r)
  /\ (   (snd r = e /\ shr_m (fst r) = m /\ d <= 24)
      \/ (e < snd r /\ snd r = Z.max (d + e - 24) (-149)
          /\ Zdigits2 (shr_m (fst r)) <= Z.max 0 (d - (snd r - e)))).
Proof.
  intros Hm r d. subst r. unfold shr_fexp, shr. fold d.
  replace (fexp F32.prec F32.emax (d + e)) with (Z.max (d + e - 24) (-149))
    by reflexivity.
  destruct (Z.max (d + e - 24) (-149) - e) as [|p|p] eqn:En;
    cbn [fst snd].
  - rewrite shr_record_of_loc_m. split; [easy|]. left. lia.
  - rewrite iter_shr_1_m by now rewrite shr_record_of_loc_m.
    rewrite shr_record_of_loc_m. split; [now apply Z.shiftr_nonneg|].
    right. repeat split; [lia..|].
    replace (e + Zpos p - e) with (Zpos p) by ring.
    apply Zdigits2_shiftr; lia.
  - rewrite shr_record_of_loc_m. split; [easy|]. left. lia.
Qed.

Lemma round_nearest_even_cases m l :
  round_nearest_even m l = m \/ round_nearest_even m l = m + 1.
Proof.
  destruct l as [|[]]; simpl; auto. destruct (Z.even m); auto.
Qed.

End Shift.



Section Rounding.

(** What rounding returns, in terms of the mantissa and exponent left by
    the second normalising shift. *)
Lemma round_aux_spec sx mx ex lx :
  0 <= mx ->
  exists m3 e3,
    binary_round_aux F32.prec F32.emax sx mx ex lx
      = match m3 with
        | Z0 => S754_zero sx
        | Zpos p => if e3 <=? 104 then S754_finite sx p e3
                    else S754_infinity sx
        | Zneg _ => S754_nan
        end
    /\ 0 <= m3 /\ Zdigits2 m3 <= 24
    /\ (forall B, Zdigits2 mx + ex < B -> ex <= B - 24 -> -124 <= B ->
        e3 <= B - 24).
Proof.
  intros Hm. unfold binary_round_aux.
  pose proof (shr_fexp_spec mx ex lx Hm) as H1.
  destruct (shr_fexp F32.prec F32.emax mx ex lx) as [mrs1 e1].
  cbn [fst snd] in H1. destruct H1 as (Hm1 & H1).
  set (m2 := round_nearest_even (shr_m mrs1) (loc_of_shr_record mrs1)).
  assert (Hm2 : 0 <= m2 /\ Zdigits2 m2 <= Zdigits2 (shr_m mrs1) + 1).
  { subst m2.
    destruct (round_nearest_even_cases (shr_m mrs1) (loc_of_shr_record mrs1))
      as [-> | ->]; [lia|].
    split; [lia | now apply Zdigits2_succ]. }
  destruct Hm2 as (Hm2 & Hd2).
  pose proof (shr_fexp_spec m2 e1 loc_Exact Hm2) as H3.
  destruct (shr_fexp F32.prec F32.emax m2 e1 loc_Exact) as [mrs3 e3].
  cbn [fst snd] in H3. destruct H3 as (Hm3 & H3).
  exists (shr_m mrs3), e3. split; [reflexivity|]. split; [easy|].
  pose proof (Zdigits2_nonneg mx). pose proof (Zdigits2_nonneg m2).
  pose proof (Zdigits2_nonneg (shr_m mrs1)).
  split.
  - destruct H3 as [(-> & -> & ?) | (? & -> & ?)]; lia.
  - intros B HB1 HB2 HB3.
    destruct H1 as [(-> & E1 & ?) | (? & -> & ?)];
      [rewrite E1 in * |];
      destruct H3 as [(-> & ? & ?) | (? & -> & ?)]; lia.
Qed.

Lemma round_aux_shaped sx mx ex lx :
  0 <= mx ->
  shaped (binary_round_aux F32.prec F32.emax sx mx ex lx)
  /\ has_sign sx (binary_round_aux F32.prec F32.emax sx mx ex lx).
Proof.
  intros Hm. destruct (round_aux_spec sx mx ex lx Hm) as (m3 & e3 & -> & H0 & Hd & _).
  destruct m3 as [|p|p]; [easy| |lia].
  destruct (e3 <=? 104); easy.
Qed.

Lemma round_aux_below sx mx ex lx B :
  0 <= mx -> Zdigits2 mx + ex < B -> ex <= B - 24 -> -124 <= B <= 128 ->
  below B (binary_round_aux F32.prec F32.emax sx mx ex lx).
Proof.
  intros Hm HB1 HB2 HB3.
  destruct (round_aux_spec sx mx ex lx Hm) as (m3 & e3 & -> & H0 & Hd & He).
  specialize (He B HB1 HB2 ltac:(lia)).
  destruct m3 as [|p|p]; [easy| |lia].
  destruct (Z.leb_spec e3 104); [easy | lia].
Qed.

End Rounding.

Section Normalize.

Lemma Zdigits2_abs m k :
  0 <= k -> Z.abs m < 2 ^ k -> Zdigits2 m <= k.
Proof.
  intros Hk Hlt. destruct m as [|p|p].
  - simpl. lia.
  - apply Zdigits2_bound; lia.
  - change (Zdigits2 (Zneg p)) with (Zdigits2 (Zpos p)).
    apply Zdigits2_bound; lia.
Qed.

Lemma iter_xO m d : Zpos (Pos.iter xO m d) = Zpos m * 2 ^ Zpos d.
Proof.
  induction d as [|d IH] using Pos.peano_ind.
  - simpl. lia.
  - rewrite Pos.iter_succ, Pos2Z.inj_xO, IH, Pos2Z.inj_succ.
    rewrite Z.pow_succ_r by lia. ring.
Qed.

(** Aligning a mantissa to a lower exponent keeps the value. *)
Lemma shl_align_spec mx ex ex' :
  let r := shl_align mx ex ex' in
  snd r <= ex /\ snd r <= ex' \/ snd r = ex /\ ex <= ex'.
Proof. unfold shl_align. destruct (ex' - ex) eqn:E; simpl; lia. Qed.

Lemma shl_align_value mx ex ex' :
  let r := shl_align mx ex ex' in
  snd r <= ex /\ Zpos (fst r) = Zpos mx * 2 ^ (ex - snd r).
Proof.
  unfold shl_align. destruct (ex' - ex) as [|p|p] eqn:E; cbn [fst snd].
  - rewrite Z.sub_diag. simpl. lia.
  - rewrite Z.sub_diag. simpl. lia.
  - split; [lia|]. rewrite iter_xO. f_equal. f_equal. lia.
Qed.

Lemma shl_align_digits mx ex ex' :
  let r := shl_align mx ex ex' in
  Zdigits2 (Zpos (fst r)) + snd r <= digits mx + ex.
Proof.
  intros r. destruct (shl_align_value mx ex ex') as (Hle & Hv). fold r in Hle, Hv.
  pose proof (digits_gt mx). pose proof (digits_pos mx).
  assert (Zdigits2 (Zpos (fst r)) <= digits mx + (ex - snd r)); [|lia].
  apply Zdigits2_bound; [lia..|]. rewrite Hv, Z.pow_add_r by lia.
  assert (0 < 2 ^ (ex - snd r)) by (apply Z.pow_pos_nonneg; lia). nia.
Qed.

Lemma binary_round_shaped s mx ex :
  shaped (binary_round F32.prec F32.emax s mx ex)
  /\ has_sign s (binary_round F32.prec F32.emax s mx ex).
Proof.
  unfold binary_round. destruct (shl_align _ _ _) as [mz ez].
  now apply round_aux_shaped.
Qed.

Lemma binary_round_below s mx ex B :
  digits mx + ex < B -> -124 <= B <= 128 ->
  below B (binary_round F32.prec F32.emax s mx ex).
Proof.
  intros HB1 HB2. unfold binary_round.
  pose proof (shl_align_digits mx ex (fexp F32.prec F32.emax (digits mx + ex))) as Hd.
  pose proof (shl_align_spec mx ex (fexp F32.prec F32.emax (digits mx + ex))) as He.
  fold (digits mx).
  destruct (shl_align _ _ _) as [mz ez]. cbn [fst snd] in Hd, He.
  assert (Hf : fexp F32.prec F32.emax (digits mx + ex)
               = Z.max (digits mx + ex - 24) (-149)) by reflexivity.
  apply round_aux_below; lia.
Qed.

Lemma binary_normalize_shaped m e sz :
  shaped (binary_normalize F32.prec F32.emax m e sz).
Proof. destruct m; simpl; [easy | apply binary_round_shaped..]. Qed.

Lemma binary_normalize_below m e sz B :
  Zdigits2 m + e < B -> -124 <= B <= 128 ->
  below B (binary_normalize F32.prec F32.emax m e sz).
Proof.
  intros HB1 HB2. destruct m; simpl; [easy|..];
    now apply binary_round_below.
Qed.

Lemma binary_normalize_nonneg m e :
  0 <= m -> nonneg (binary_normalize F32.prec F32.emax m e false).
Proof.
  intros Hm. destruct m as [|p|p]; simpl; [easy| |lia].
  destruct (binary_round_shaped false p e) as (Hs & Hg).
  destruct (binary_round _ _ _ _ _); simpl in *; easy.
Qed.

End Normalize.

Section Operations.

Lemma below_shaped B x : below B x -> shaped x.
Proof. destruct x; simpl; tauto. Qed.

Lemma below_mono B B' x : B <= B' -> below B x -> below B' x.
Proof. destruct x; simpl; try tauto. lia. Qed.

(** [(float)n] for a 32-bit [n] is at most 2^32. *)
Lemma of_u32_below n :
  U32.in_range n -> below 33 (F32.of_u32 n) /\ nonneg (F32.of_u32 n).
Proof.
  unfold U32.in_range, U32.modulus. intros Hn. unfold F32.of_u32. split.
  - apply binary_normalize_below; [|lia].
    assert (Zdigits2 n <= 32) by (apply Zdigits2_bound; lia). lia.
  - apply binary_normalize_nonneg. lia.
Qed.

(** Aligned mantissas of two bounded operands. *)
Lemma aligned_digits sx mx ex sy my ey Bx By (op : Z -> Z -> Z) :
  (forall a b, Z.abs (op a b) <= Z.abs a + Z.abs b) ->
  digits mx <= 24 -> ex <= Bx - 24 -> digits my <= 24 -> ey <= By - 24 ->
  let ez := Z.min ex ey in
  Zdigits2 (op (cond_Zopp sx (Zpos (fst (shl_align mx ex ez))))
               (cond_Zopp sy (Zpos (fst (shl_align my ey ez))))) + ez
    < Z.max Bx By + 2.
Proof.
  intros Hop Hdx Hex Hdy Hey ez.
  destruct (shl_align_value mx ex ez) as (Hx1 & Hx2).
  destruct (shl_align_value my ey ez) as (Hy1 & Hy2).
  assert (Ex : snd (shl_align mx ex ez) = ez).
  { unfold shl_align. destruct (ez - ex) eqn:E; simpl; lia. }
  assert (Ey : snd (shl_align my ey ez) = ez).
  { unfold shl_align. destruct (ez - ey) eqn:E; simpl; lia. }
  rewrite Ex in Hx2. rewrite Ey in Hy2.
  set (a := cond_Zopp sx _). set (b := cond_Zopp sy _).
  pose proof (digits_gt mx). pose proof (digits_gt my).
  pose proof (digits_pos mx). pose proof (digits_pos my).
  set (K := Z.max (digits mx + ex) (digits my + ey)).
  assert (Ha : Z.abs a < 2 ^ (K - ez)).
  { subst a. assert (Z.abs (cond_Zopp sx (Zpos (fst (shl_align mx ex ez))))
                      = Zpos (fst (shl_align mx ex ez))) as -> by (destruct sx; simpl; lia).
    rewrite Hx2.
    assert (2 ^ (digits mx) * 2 ^ (ex - ez) <= 2 ^ (K - ez)).
    { rewrite <- Z.pow_add_r by lia. apply Z.pow_le_mono_r; lia. }
    assert (0 < 2 ^ (ex - ez)) by (apply Z.pow_pos_nonneg; lia). nia. }
  assert (Hb : Z.abs b < 2 ^ (K - ez)).
  { subst b. assert (Z.abs (cond_Zopp sy (Zpos (fst (shl_align my ey ez))))
                      = Zpos (fst (shl_align my ey ez))) as -> by (destruct sy; simpl; lia).
    rewrite Hy2.
    assert (2 ^ (digits my) * 2 ^ (ey - ez) <= 2 ^ (K - ez)).
    { rewrite <- Z.pow_add_r by lia. apply Z.pow_le_mono_r; lia. }
    assert (0 < 2 ^ (ey - ez)) by (apply Z.pow_pos_nonneg; lia). nia. }
  assert (Zdigits2 (op a b) <= K - ez + 1); [|lia].
  apply Zdigits2_abs; [lia|]. specialize (Hop a b).
  rewrite Z.pow_add_r by lia. lia.
Qed.

Lemma sub_below Bx By x y :
  below Bx x -> below By y -> -126 <= Z.max Bx By <= 126 ->
  below (Z.max Bx By + 2) (F32.sub x y).
Proof.
  intros Hx Hy HB.
  destruct x as [sx|sx| |sx mx ex], y as [sy|sy| |sy my ey];
    simpl in Hx, Hy; try easy.
  - simpl. now destruct sx, sy.
  - simpl. lia.
  - simpl. lia.
  - destruct Hx as (Hdx & Hex), Hy as (Hdy & Hey).
    unfold F32.sub, SFsub. apply binary_normalize_below; [|lia].
    apply (aligned_digits sx mx ex sy my ey Bx By Z.sub); [lia|easy..].
Qed.

Lemma mul_below Bx By x y :
  below Bx x -> below By y -> -125 <= Bx + By <= 127 ->
  below (Bx + By + 1) (F32.mul x y).
Proof.
  intros Hx Hy HB.
  destruct x as [sx|sx| |sx mx ex], y as [sy|sy| |sy my ey];
    simpl in Hx, Hy; try easy.
  destruct Hx as (Hdx & Hex), Hy as (Hdy & Hey).
  unfold F32.mul, SFmul.
  assert (Zdigits2 (Zpos (mx * my)) <= digits mx + digits my).
  { rewrite Pos2Z.inj_mul. apply (Zdigits2_mul (Zpos mx) (Zpos my)); lia. }
  apply round_aux_below; lia.
Qed.

Lemma mul_nonneg x y :
  below 128 x -> below 128 y -> nonneg x -> nonneg y -> nonneg (F32.mul x y).
Proof.
  intros Hx Hy Nx Ny.
  destruct x as [sx|sx| |sx mx ex], y as [sy|sy| |sy my ey];
    simpl in *; try easy.
  subst sx sy. unfold F32.mul, SFmul.
  destruct (round_aux_shaped (xorb false false) (Zpos (mx * my)) (ex + ey)
              loc_Exact ltac:(lia)) as (_ & Hg).
  destruct (binary_round_aux _ _ _ _ _ _); simpl in *; easy.
Qed.

(** Multiplying by a finite constant never produces a NaN. *)
Lemma mul_shaped_l s m e x :
  shaped x -> shaped (F32.mul (S754_finite s m e) x).
Proof.
  intros Hx. destruct x as [sx|sx| |sx mx ex]; simpl in *; try easy.
  now apply round_aux_shaped.
Qed.

(** Adding a finite number never turns a non-NaN into a NaN. *)
Lemma add_shaped_l B a b :
  below B a -> shaped b -> shaped (F32.add a b).
Proof.
  intros Ha Hb.
  destruct a as [sa|sa| |sa ma ea], b as [sb|sb| |sb mb eb];
    simpl in *; try easy;
    first [ now destruct sa, sb | apply Ha | apply binary_normalize_shaped ].
Qed.

Lemma add_shaped_r B a b :
  shaped a -> below B b -> shaped (F32.add a b).
Proof.
  intros Ha Hb.
  destruct a as [sa|sa| |sa ma ea], b as [sb|sb| |sb mb eb];
    simpl in *; try easy;
    first [ now destruct sa, sb | apply Hb | apply binary_normalize_shaped ].
Qed.

End Operations.

Section Conversion.

(** Dividing a bounded non-negative float by [100.0f]. *)
Lemma div_hundred_below Bx x :
  below Bx x -> nonneg x -> -100 <= Bx <= 128 ->
  below (Bx - 5) (F32.div x F32.hundred)
  /\ nonneg (F32.div x F32.hundred).
Proof.
  intros Hx Nx HB. destruct x as [sx|sx| |sx mx ex]; simpl in Hx, Nx; try easy.
  subst sx. destruct Hx as (Hdx & Hex).
  unfold F32.div, F32.hundred, SFdiv, SFdiv_core_binary. cbv zeta.
  change (Zdigits2 13107200) with 24.
  change (Zdigits2 (Zpos mx)) with (digits mx).
  replace (fexp F32.prec F32.emax (digits mx + ex - (24 + -17)))
    with (Z.max (digits mx + ex - 31) (-149))
    by (unfold fexp, emin, F32.prec, F32.emax; f_equal; lia).
  set (e' := Z.min (Z.max (digits mx + ex - 31) (-149)) (ex - -17)).
  set (s := ex - -17 - e').
  set (m' := match s with Zpos _ => Z.shiftl (Zpos mx) s | Z0 => Zpos mx
             | Zneg _ => 0 end).
  assert (Hs : 0 <= s) by (subst s e'; lia).
  assert (Hm' : m' = Zpos mx * 2 ^ s).
  { subst m'. destruct s as [|p|p] eqn:Es; [simpl; lia | | lia].
    now rewrite Z.shiftl_mul_pow2 by lia. }
  pose proof (Z_div_mod m' 13107200 ltac:(lia)) as Hdiv.
  destruct (Z.div_eucl m' 13107200) as [q r]. destruct Hdiv as (Hq & Hr).
  pose proof (digits_gt mx) as Hgt. pose proof (digits_pos mx).
  assert (H2s : 0 < 2 ^ s) by (apply Z.pow_pos_nonneg; lia).
  assert (Hq0 : 0 <= q) by nia.
  assert (Hqd : Zdigits2 q <= Z.max 0 (digits mx + s - 23)).
  { apply Zdigits2_bound; [easy | lia |].
    assert (Hlt : q * 2 ^ 23 < 2 ^ (digits mx + s)).
    { rewrite Z.pow_add_r by lia. 
      assert (q * 2 ^ 23 <= m') by (change (2 ^ 23) with 8388608; nia). nia. }
    destruct (Z_lt_le_dec (digits mx + s) 23).
    - rewrite Z.max_l by lia.
      assert (2 ^ (digits mx + s) <= 2 ^ 23) by (apply Z.pow_le_mono_r; lia).
      change (2 ^ 0) with 1. change (2 ^ 23) with 8388608 in *. nia.
    - rewrite Z.max_r by lia.
      replace (digits mx + s) with (digits mx + s - 23 + 23) in Hlt by ring.
      rewrite Z.pow_add_r in Hlt by lia.
      change (2 ^ 23) with 8388608 in *. lia. }
  split.
  - apply round_aux_below; [easy | subst s e'; lia | subst e'; lia | lia].
  - destruct (round_aux_shaped (xorb false false) q e'
                (new_location 13107200 r) Hq0) as (_ & Hg).
    destruct (binary_round_aux _ _ _ _ _ _); simpl in *; easy.
Qed.

(** A bounded non-negative float converts to an unsigned integer. *)
Lemma to_u32_below B x :
  below B x -> nonneg x -> 0 <= B <= 32 ->
  exists z, F32.to_u32 x = Some z /\ 0 <= z < 2 ^ B.
Proof.
  intros Hx Nx HB. assert (H0 : 0 < 2 ^ B) by (apply Z.pow_pos_nonneg; lia).
  assert (H32 : 2 ^ B <= 2 ^ 32) by (apply Z.pow_le_mono_r; lia).
  destruct x as [sx|sx| |sx mx ex]; simpl in Hx, Nx; try easy.
  - exists 0. split; [reflexivity | lia].
  - subst sx. destruct Hx as (Hdx & Hex).
    exists (Z.shiftl (Zpos mx) ex).
    assert (Hz : 0 <= Z.shiftl (Zpos mx) ex < 2 ^ B).
    { pose proof (digits_gt mx) as Hgt. pose proof (digits_pos mx).
      assert (Zpos mx < 2 ^ 24).
      { assert (2 ^ digits mx <= 2 ^ 24) by (apply Z.pow_le_mono_r; lia). lia. }
      split; [apply Z.shiftl_nonneg; lia|].
      destruct (Z_lt_le_dec ex 0).
      - rewrite <- (Z.opp_involutive ex), Z.shiftl_opp_r.
        rewrite Z.shiftr_div_pow2 by lia.
        assert (0 < 2 ^ (- ex)) by (apply Z.pow_pos_nonneg; lia).
        apply Z.div_lt_upper_bound; [lia|].
        destruct (Z_lt_le_dec (24 + ex) 0).
        + assert (2 ^ 24 <= 2 ^ (- ex)) by (apply Z.pow_le_mono_r; lia). nia.
        + assert (2 ^ (24 + ex) <= 2 ^ B) by (apply Z.pow_le_mono_r; lia).
          assert (2 ^ 24 = 2 ^ (- ex) * 2 ^ (24 + ex)).
          { rewrite <- Z.pow_add_r by lia. f_equal. lia. }
          nia.
      - rewrite Z.shiftl_mul_pow2 by lia.
        assert (2 ^ 24 * 2 ^ ex <= 2 ^ B).
        { rewrite <- Z.pow_add_r by lia. apply Z.pow_le_mono_r; lia. }
        assert (0 < 2 ^ ex) by (apply Z.pow_pos_nonneg; lia). nia. }
    split; [|easy]. unfold F32.to_u32, F32.trunc, cond_Zopp, U32.modulus.
    destruct (Z.leb_spec 0 (Z.shiftl (Zpos mx) ex)); [|lia].
    destruct (Z.ltb_spec (Z.shiftl (Zpos mx) ex) (2 ^ 32)); [easy | lia].
Qed.

End Conversion.

Section Comparison.

(** Comparison with a positive finite bound [c] and with zero. *)
Variables (mc : positive) (ec : Z).

Lemma between_zero_and x :
  shaped x ->
  SFltb (S754_finite false mc ec) x = false ->
  SFltb x (S754_zero false) = false ->
  match x with
  | S754_zero _ => True
  | S754_finite s _ e => s = false /\ e <= ec
  | _ => False
  end
  /\ SFleb (S754_zero false) x = true
  /\ SFleb x (S754_finite false mc ec) = true.
Proof.
  unfold SFltb, SFleb. intros Hs Hc H0.
  destruct x as [sx|sx| |sx mx ex]; try easy.
  - now destruct sx.
  - destruct sx; [easy|]. cbn [SFcompare] in *.
    rewrite (Z.compare_antisym ec ex).
    change (PosDef.Pos.compare_cont Eq mx mc) with (Pos.compare_cont (CompOpp Eq) mx mc).
    rewrite <- (Pos.compare_cont_antisym mc mx Eq).
    destruct (Z.compare_spec ec ex); cbn [CompOpp] in *; try easy.
    + subst ex. repeat split; try lia.
      destruct (Pos.compare_cont Eq mc mx); cbn [CompOpp] in *; easy.
    + repeat split; lia.
Qed.

Lemma leb_not_above x :
  SFleb x (S754_finite false mc ec) = true ->
  SFltb (S754_finite false mc ec) x = false.
Proof.
  unfold SFltb, SFleb.
  destruct x as [sx|sx| |sx mx ex]; try easy.
  - now destruct sx.
  - destruct sx; [easy|]. cbn [SFcompare].
    rewrite (Z.compare_antisym ec ex).
    change (PosDef.Pos.compare_cont Eq mx mc) with (Pos.compare_cont (CompOpp Eq) mx mc).
    rewrite <- (Pos.compare_cont_antisym mc mx Eq).
    destruct (Z.compare ec ex); cbn [CompOpp]; try easy.
    destruct (Pos.compare_cont Eq mc mx); cbn [CompOpp]; easy.
Qed.

Lemma leb_zero_not_below x :
  SFleb (S754_zero false) x = true -> SFltb x (S754_zero false) = false.
Proof.
  unfold SFltb, SFleb.
  destruct x as [sx|sx| |sx mx ex]; try easy; now destruct sx.
Qed.

End Comparison.

(** A non-NaN raw output that is neither above 100 nor below 0 is
    non-negative and below 2^7. *)
Lemma within_limits x :
  shaped x ->
  F32.ltb F32.hundred x = false -> F32.ltb x F32.zero = false ->
  below 7 x /\ nonneg x
  /\ F32.leb F32.zero x = true /\ F32.leb x F32.hundred = true.
Proof.
  intros Hs H100 H0.
  destruct (between_zero_and 13107200 (-17) x Hs H100 H0) as (Hx & Hz & Hh).
  repeat split; try easy; destruct x as [sx|sx| |sx mx ex]; easy.
Qed.

(** ** One controller cycle on floats *)

Section Controller.

(** One cycle of the controller on 32-bit inputs and a non-NaN
    integral. *)
Variables (target rpm : Z) (esum : spec_float).
Hypothesis Htarget : U32.in_range target.
Hypothesis Hrpm : U32.in_range rpm.
Hypothesis Hesum : shaped esum.

Lemma f_error_below : below 35 (f_error target rpm).
Proof.
  unfold f_error.
  apply (sub_below 33 33); [now apply of_u32_below.. | lia].
Qed.

Lemma f_output_shaped : shaped (f_output target rpm esum).
Proof.
  unfold f_output. apply (add_shaped_l 32).
  - apply (mul_below (-4) 35); [unfold g_f_kp, below, digits; simpl; lia | apply f_error_below | lia].
  - now apply mul_shaped_l.
Qed.

Lemma pi_limit_spec :
  let raw := f_output target rpm esum in
  let r := pi_limit (f_error target rpm) raw esum in
  below 7 (fst r) /\ nonneg (fst r)
  /\ F32.leb F32.zero (fst r) = true /\ F32.leb (fst r) F32.hundred = true
  /\ shaped (snd r).
Proof.
  intros raw r. subst r. unfold pi_limit.
  destruct (F32.ltb F32.hundred raw) eqn:E100; cbn [fst snd].
  { repeat split; try easy; unfold F32.hundred, below, digits; simpl; lia. }
  destruct (F32.ltb raw F32.zero) eqn:E0; cbn [fst snd].
  { repeat split; easy. }
  destruct (within_limits raw f_output_shaped E100 E0) as (? & ? & ? & ?).
  repeat split; try easy.
  apply (add_shaped_r 31); [easy|].
  apply (mul_below 35 (-5)); [apply f_error_below | unfold g_f_ta, below, digits; simpl; lia | lia].
Qed.

Lemma pwm_compare_defined out :
  below 7 out -> nonneg out ->
  exists ccr, F32.to_u32 (pwm_compare 399 out) = Some ccr /\ 0 <= ccr < 2 ^ 12.
Proof.
  intros Hb Hn. unfold pwm_compare.
  change (F32.of_u32 (U32.add 399 1)) with (S754_finite false 13107200 (-15)).
  assert (Hm : below 17 (F32.mul (S754_finite false 13107200 (-15)) out)).
  { apply (mul_below 9 7); [unfold below, digits; simpl; lia | easy | lia]. }
  assert (Hmn : nonneg (F32.mul (S754_finite false 13107200 (-15)) out)).
  { apply mul_nonneg;
      [ unfold below, digits; simpl; lia
      | apply (below_mono 7); [lia | easy]
      | reflexivity
      | easy ]. }
  destruct (div_hundred_below 17 _ Hm Hmn ltac:(lia)) as (Hd & Hdn).
  apply (to_u32_below 12); [exact Hd | exact Hdn | lia].
Qed.

End Controller.


Lemma pi_gains :
  g_f_kp = F32.div (F32.of_u32 4) (F32.of_u32 100)
  /\ g_f_ki = F32.div (F32.of_u32 3) (F32.of_u32 100)
  /\ g_f_ta = F32.div (F32.of_u32 2) (F32.of_u32 100).
Proof. repeat split; vm_compute; reflexivity. Qed.

Lemma saturation_scenario :
  f_output 5000 0 F32.zero = F32.of_u32 200
  /\ F32.ltb F32.hundred (F32.of_u32 200) = true
  /\ limited_output 5000 0 F32.zero = F32.hundred
  /\ next_esum 5000 0 F32.zero = F32.zero.
Proof. repeat split; vm_compute; reflexivity. Qed.

Lemma pwm_whole_percent_check :
  forallb (fun k => match F32.to_u32 (pwm_compare 399 (F32.of_u32 k)) with
                    | Some c => c =? 400 * k / 100
                    | None => false
                    end) (seqZ 0 101) = true.
Proof. vm_compute. reflexivity. Qed.

Lemma pwm_whole_percent k :
  0 <= k <= 100 ->
  F32.to_u32 (pwm_compare 399 (F32.of_u32 k)) = Some (400 * k / 100).
Proof.
  intros Hk. pose proof pwm_whole_percent_check as Hall.
  rewrite forallb_forall in Hall. specialize (Hall k).
  destruct (F32.to_u32 _) as [c|].
  - f_equal. apply Z.eqb_eq. apply Hall.
    apply list_elem_of_In, elem_of_seqZ. lia.
  - discriminate Hall. apply list_elem_of_In, elem_of_seqZ. lia.
Qed.


(** ** The median window *)

Section MedianProperties.

Implicit Types (l xs : list Z) (w : Median.window).

(** While the window is filling, the buffer holds the samples in the
    order they came, followed by the untouched slots. *)
Lemma inserts_filling (N : nat) xs :
  (length xs <= N)%nat ->
  Median.buf (Median.inserts xs (Median.init N))
    = xs ++ replicate (N - length xs) 0
  /\ Median.count (Median.inserts xs (Median.init N)) = length xs
  /\ (length xs < N ->
      Median.cursor (Median.inserts xs (Median.init N)) = length xs)%nat.
Proof.
  induction xs as [|x xs IH] using rev_ind; intros Hlen.
  - simpl. rewrite Nat.sub_0_r. auto.
  - rewrite length_app in Hlen. simpl in Hlen.
    destruct IH as (Hbuf & Hcnt & Hcur); [lia|].
    unfold Median.inserts in *. rewrite foldl_snoc.
    set (w := foldl _ _ xs) in *.
    assert (Hcap : Median.capacity w = N).
    { unfold Median.capacity. rewrite Hbuf, length_app, length_replicate. lia. }
    unfold Median.insert; simpl. rewrite Hcap, Hcnt, Hcur, Hbuf by lia.
    rewrite length_app. simpl. repeat split.
    + replace (N - length xs)%nat with (S (N - (length xs + 1)))%nat by lia.
      rewrite <- (Nat.add_0_r (length xs)) at 1.
      rewrite insert_app_r. simpl. now rewrite <- app_assoc.
    + lia.
    + intros Hlt. rewrite Nat.mod_small; lia.
Qed.

Lemma contents_filling (N : nat) xs :
  (length xs <= N)%nat ->
  Median.contents (Median.inserts xs (Median.init N)) = xs.
Proof.
  intros Hlen. destruct (inserts_filling N xs Hlen) as (Hbuf & Hcnt & _).
  unfold Median.contents. rewrite Hbuf, Hcnt. apply take_app_length.
Qed.

(** Ranks in a sorted list. *)
Lemma count_lt_none m l :
  Forall (Z.le m) l -> Median.count_lt m l = 0%nat.
Proof.
  unfold Median.count_lt. induction 1 as [|a l Ha _ IH]; [easy|].
  now rewrite filter_cons_False by lia.
Qed.

Lemma count_lt_sorted l (i : nat) m :
  StronglySorted Z.le l -> l !! i = Some m ->
  (Median.count_lt m l <= i)%nat.
Proof.
  intros Hs. revert i.
  induction Hs as [|a l Hs IH Hall]; intros i Hi; [easy|].
  destruct i as [|i]; simpl in Hi.
  - injection Hi as ->. rewrite count_lt_none; [lia|].
    constructor; [lia | exact Hall].
  - specialize (IH i Hi). unfold Median.count_lt in *.
    destruct (decide (a < m)) as [Hlt|Hge].
    + rewrite filter_cons_True by exact Hlt. simpl. lia.
    + rewrite filter_cons_False by exact Hge. lia.
Qed.

Lemma count_gt_sorted l (i : nat) m :
  StronglySorted Z.le l -> l !! i = Some m ->
  (i + Median.count_gt m l < length l)%nat.
Proof.
  intros Hs. revert i.
  induction Hs as [|a l Hs IH Hall]; intros i Hi; [easy|].
  unfold Median.count_gt in *. destruct i as [|i]; simpl in Hi.
  - injection Hi as ->. rewrite filter_cons_False by lia.
    pose proof (length_filter (fun x => m < x) l). simpl. lia.
  - specialize (IH i Hi).
    assert (a <= m).
    { rewrite Forall_forall in Hall. apply Hall.
      apply list_elem_of_lookup. eauto. }
    rewrite filter_cons_False by lia. simpl. lia.
Qed.

Lemma count_lt_perm m l l' : l ≡ₚ l' -> Median.count_lt m l = Median.count_lt m l'.
Proof. intros Hp. unfold Median.count_lt. now rewrite Hp. Qed.

Lemma count_gt_perm m l l' : l ≡ₚ l' -> Median.count_gt m l = Median.count_gt m l'.
Proof. intros Hp. unfold Median.count_gt. now rewrite Hp. Qed.

(** The middle of the sorted samples is a median by rank. *)
Lemma middle_is_median l :
  l <> [] -> Median.is_median (Median.middle l) l.
Proof.
  intros Hne. unfold Median.middle.
  set (s := merge_sort Z.le l).
  assert (Hperm : s ≡ₚ l) by apply merge_sort_Permutation.
  assert (Hsort : StronglySorted Z.le s).
  { apply StronglySorted_merge_sort; [apply _ | intros x y; lia]. }
  assert (Hlen : length s = length l) by now rewrite Hperm.
  assert (Hpos : (0 < length l)%nat) by (destruct l; simpl; [easy | lia]).
  assert (Hidx : (length l / 2 < length s)%nat).
  { rewrite Hlen. apply Nat.div_lt; lia. }
  destruct (lookup_lt_is_Some_2 s _ Hidx) as [m Hm].
  rewrite (nth_lookup_Some _ _ _ _ Hm).
  pose proof (count_lt_sorted _ _ _ Hsort Hm) as Hlo.
  pose proof (count_gt_sorted _ _ _ Hsort Hm) as Hhi.
  rewrite (count_lt_perm m s l Hperm) in Hlo.
  rewrite (count_gt_perm m s l Hperm), Hlen in Hhi.
  pose proof (Nat.div_mod_eq (length l) 2) as Hdm.
  pose proof (Nat.mod_upper_bound (length l) 2).
  repeat split; [|lia|lia].
  rewrite <- Hperm. apply list_elem_of_lookup. eauto.
Qed.

Lemma inserts_snoc ys x w :
  Median.inserts (ys ++ [x]) w = Median.insert x (Median.inserts ys w).
Proof. unfold Median.inserts. now rewrite foldl_snoc. Qed.

Lemma tail_drop (k : nat) l : tail (drop k l) = drop (S k) l.
Proof.
  replace (S k) with (k + 1)%nat by lia. rewrite <- drop_drop.
  now destruct (drop k l).
Qed.

(** The moment the window fills: the cursor is back on the first slot. *)
Lemma inserts_fills (N : nat) xs :
  (0 < N)%nat -> length xs = N ->
  window_full N (Median.inserts xs (Median.init N))
  /\ chronological (Median.inserts xs (Median.init N)) = xs.
Proof.
  intros HN Hlen.
  destruct xs as [|x0 xs0] using rev_ind; [simpl in Hlen; lia|].
  clear IHxs0. rewrite length_app in Hlen. simpl in Hlen.
  destruct (inserts_filling N xs0 ltac:(lia)) as (Hbuf & Hcnt & Hcur).
  specialize (Hcur ltac:(lia)).
  destruct (inserts_filling N (xs0 ++ [x0])
              ltac:(rewrite length_app; simpl; lia)) as (Hbuf' & Hcnt' & _).
  rewrite length_app in Hbuf', Hcnt'. simpl in Hbuf', Hcnt'.
  replace (N - (length xs0 + 1))%nat with 0%nat in Hbuf' by lia.
  simpl in Hbuf'. rewrite app_nil_r in Hbuf'.
  assert (Hc : Median.cursor (Median.inserts (xs0 ++ [x0]) (Median.init N))
               = 0%nat).
  { rewrite inserts_snoc. unfold Median.insert, Median.capacity. simpl.
    rewrite Hcur, Hbuf, length_app, length_replicate.
    replace (length xs0 + (N - length xs0))%nat with N by lia.
    replace (S (length xs0)) with N by lia. apply Nat.Div0.mod_same. }
  split.
  - unfold window_full. rewrite Hbuf', Hcnt', Hc, length_app. simpl. lia.
  - unfold chronological. rewrite Hc, Hbuf'. simpl. apply app_nil_r.
Qed.

(** One more sample in a full window: the oldest one goes. *)
Lemma insert_full (N : nat) x w :
  window_full N w ->
  window_full N (Median.insert x w)
  /\ chronological (Median.insert x w) = tail (chronological w) ++ [x].
Proof.
  intros (Hlen & Hcnt & Hcur).
  destruct w as [B c k]. simpl in *. subst k.
  destruct (lookup_lt_is_Some_2 B c ltac:(lia)) as [b Hb].
  apply list_elem_of_split_length in Hb. destruct Hb as (B1 & B2 & -> & ->).
  rewrite length_app in Hlen. simpl in Hlen.
  assert (Hins : <[length B1 := x]> (B1 ++ b :: B2) = B1 ++ x :: B2).
  { replace (length B1) with (length B1 + 0)%nat at 1 by lia.
    now rewrite insert_app_r. }
  unfold chronological, Median.insert, Median.capacity, window_full. simpl.
  rewrite Hins, drop_app_length, take_app_length, !length_app. simpl.
  replace (length B1 + S (length B2))%nat with N by lia.
  split.
  - split; [lia|]. split; [lia|]. apply Nat.mod_upper_bound. lia.
  - destruct (decide (S (length B1) = N)) as [E|E].
    + rewrite E, Nat.Div0.mod_same. simpl.
      assert (HB2 : B2 = []) by (apply nil_length_inv; lia). subst B2.
      simpl. now rewrite app_nil_r.
    + rewrite Nat.mod_small by lia.
      replace (S (length B1)) with (length (B1 ++ [x]))
        by (rewrite length_app; simpl; lia).
      replace (B1 ++ x :: B2) with ((B1 ++ [x]) ++ B2)
        by (now rewrite <- app_assoc).
      rewrite drop_app_length, take_app_length. now rewrite app_assoc.
Qed.

(** After any number of inserts that fills the window, the window holds
    the most recent [N] samples, oldest first from the cursor on. *)
Lemma inserts_recent (N : nat) ys :
  (0 < N)%nat -> (N <= length ys)%nat ->
  window_full N (Median.inserts ys (Median.init N))
  /\ chronological (Median.inserts ys (Median.init N)) = most_recent N ys.
Proof.
  intros HN. induction ys as [|x ys IH] using rev_ind; intros Hlen.
  - simpl in Hlen. lia.
  - rewrite length_app in Hlen. simpl in Hlen.
    destruct (decide (length ys + 1 = N)%nat) as [E|E].
    + destruct (inserts_fills N (ys ++ [x]) HN
                  ltac:(rewrite length_app; simpl; lia)) as (Hf & Hc).
      split; [exact Hf|]. rewrite Hc. unfold most_recent.
      rewrite length_app. simpl.
      now replace (length ys + 1 - N)%nat with 0%nat by lia.
    + destruct (IH ltac:(lia)) as (Hf & Hc).
      rewrite inserts_snoc.
      destruct (insert_full N x _ Hf) as (Hf' & Hc').
      split; [exact Hf'|]. rewrite Hc', Hc. unfold most_recent.
      rewrite length_app. simpl.
      replace (length ys + 1 - N)%nat with (S (length ys - N)) by lia.
      rewrite drop_app_le by lia. f_equal. apply tail_drop.
Qed.

Lemma contents_full (N : nat) w :
  window_full N w -> Median.contents w ≡ₚ chronological w.
Proof.
  intros (Hlen & Hcnt & _). unfold Median.contents, chronological.
  rewrite Hcnt, take_ge by lia.
  rewrite Permutation_app_comm. now rewrite take_drop.
Qed.

(** Whatever the history, the window holds the most recent samples. *)
Lemma contents_recent (N : nat) ys :
  (0 < N)%nat ->
  Median.contents (Median.inserts ys (Median.init N)) ≡ₚ most_recent N ys.
Proof.
  intros HN. destruct (le_lt_dec N (length ys)) as [Hge|Hlt].
  - destruct (inserts_recent N ys HN Hge) as (Hf & Hc).
    rewrite <- Hc. now apply (contents_full N).
  - rewrite contents_filling by lia. unfold most_recent.
    now replace (length ys - N)%nat with 0%nat by lia.
Qed.

Lemma merge_sort_perm l l' :
  l ≡ₚ l' -> merge_sort Z.le l = merge_sort Z.le l'.
Proof.
  intros Hp. apply (StronglySorted_unique Z.le).
  - apply StronglySorted_merge_sort; [apply _ | intros x y; lia].
  - apply StronglySorted_merge_sort; [apply _ | intros x y; lia].
  - now rewrite !merge_sort_Permutation.
Qed.

Lemma middle_perm l l' : l ≡ₚ l' -> Median.middle l = Median.middle l'.
Proof.
  intros Hp. unfold Median.middle.
  now rewrite (merge_sort_perm l l' Hp), (Permutation_length Hp).
Qed.

(** C5: for a window of any size N and any non-empty history of inserts,
    however long, the window holds the most recent N samples of the history
    (all of them while the window is filling): once the window is full an
    insert overwrites the oldest sample.  The median read is the element in
    the middle of these samples sorted by value, and it is a median of them
    by rank (it occurs among them, at most half of them are smaller, at
    most half larger).  In particular, after any N inserts, whatever was
    inserted before them, the median read is the middle of those N values
    sorted; before the window first fills it is the middle of however many
    samples exist.  It is the value the call [median_get_median] returns
    for the last sample of the history. *)
Theorem median_of_inserted_samples (N : nat) ys :
  (0 < N)%nat -> ys <> [] ->
  let w := Median.inserts ys (Median.init N) in
  let recent := most_recent N ys in
  Median.contents w ≡ₚ recent
  /\ ((length ys <= N)%nat -> Median.contents w = ys /\ recent = ys)
  /\ (forall pre xs, ys = pre ++ xs -> length xs = N ->
      recent = xs
      /\ Median.median w = nth (N / 2) (merge_sort Z.le xs) 0
      /\ Median.is_median (Median.median w) xs)
  /\ Median.median w = nth (length recent / 2) (merge_sort Z.le recent) 0
  /\ Sorted Z.le (merge_sort Z.le recent)
  /\ merge_sort Z.le recent ≡ₚ recent
  /\ Median.is_median (Median.median w) recent
  /\ (forall zs x, ys = zs ++ [x] ->
      fst (Median.get_median x (Median.inserts zs (Median.init N)))
      = Median.median w).
Proof.
  intros HN Hne w recent.
  assert (Hcont : Median.contents w ≡ₚ recent)
    by (subst w recent; now apply contents_recent).
  assert (Hmed : Median.median w = Median.middle recent)
    by (unfold Median.median; now apply middle_perm).
  assert (Hrec : recent <> []).
  { subst recent. unfold most_recent. intros E.
    apply (f_equal length) in E. rewrite length_drop in E. simpl in E.
    destruct ys; [easy | simpl in E; lia]. }
  split; [exact Hcont|]. split.
  { intros Hlen. split; [subst w; now apply contents_filling|].
    subst recent. unfold most_recent.
    now replace (length ys - N)%nat with 0%nat by lia. }
  split.
  { intros pre xs Hys Hxs.
    assert (E : recent = xs).
    { subst recent. rewrite Hys. unfold most_recent.
      rewrite length_app, Hxs.
      replace (length pre + N - N)%nat with (length pre) by lia.
      apply drop_app_length. }
    split; [exact E|]. rewrite Hmed, E. split.
    - unfold Median.middle. now rewrite Hxs.
    - apply middle_is_median. now rewrite <- E. }
  split; [exact Hmed|].
  split; [apply Sorted_merge_sort; intros x y; lia|].
  split; [apply merge_sort_Permutation|].
  split; [rewrite Hmed; now apply middle_is_median|].
  intros zs x ->. subst w. now rewrite inserts_snoc.
Qed.

End MedianProperties.


(** ** The fan module *)

Section FanProperties.

Context `{MedianModule}.

(** *** Reading the RPM *)

Lemma rpm_stale tick s :
  stale tick s = true -> fan_get_filtered_rpm tick s = Some (0, s).
Proof. intros Hs. unfold fan_get_filtered_rpm, bind, get. now rewrite Hs. Qed.

Lemma rpm_no_period tick s :
  g_u32_time_diff s = 0 -> fan_get_filtered_rpm tick s = Some (0, s).
Proof.
  intros Hz. unfold fan_get_filtered_rpm, bind, get.
  rewrite Hz. simpl. now destruct (stale tick s).
Qed.

Lemma rpm_fresh tick s :
  stale tick s = false -> g_u32_time_diff s <> 0 ->
  fan_get_filtered_rpm tick s =
    match u32_rpm (g_u32_time_diff s) with
    | Some rpm => call_median rpm s
    | None => None
    end.
Proof.
  intros Hs Hz. unfold fan_get_filtered_rpm, bind, get, defined.
  rewrite Hs. destruct (Z.eqb_spec (g_u32_time_diff s) 0) as [E|_]; [easy|].
  now destruct (u32_rpm (g_u32_time_diff s)).
Qed.

(** A read that returns leaves everything but the median window as it
    was. *)
Lemma rpm_frame tick s r s' :
  fan_get_filtered_rpm tick s = Some (r, s') ->
  s' = set_median (g_median s') s.
Proof.
  unfold fan_get_filtered_rpm, bind, get, defined, ret, call_median.
  destruct s; simpl.
  repeat (match goal with |- context [if ?b then _ else _] => destruct b end;
          simpl); try (intros [= <- <-]; reflexivity).
  destruct (u32_rpm _); [|easy]. intros [= <- <-]. reflexivity.
Qed.

(** C8: on a tachometer edge the stored period is the difference of the
    two counter readings modulo 2^32: it lies in [0, 2^32), is the plain
    difference when the counter did not roll over and the difference plus
    2^32 when it did, and adding it to the previous reading (modulo 2^32)
    gives back the current one. *)
Theorem exti_period_is_wrapped_distance counter tick s :
  U32.in_range counter ->
  U32.in_range (g_u32_ticks_last s) ->
  let s' := HAL_GPIO_EXTI_Callback FAN_TACHO_OUTPUT counter tick s in
  g_u32_time_diff s' = (counter - g_u32_ticks_last s) mod 2 ^ 32
  /\ 0 <= g_u32_time_diff s' < 2 ^ 32
  /\ (g_u32_ticks_last s <= counter ->
      g_u32_time_diff s' = counter - g_u32_ticks_last s)
  /\ (counter < g_u32_ticks_last s ->
      g_u32_time_diff s' = counter + 2 ^ 32 - g_u32_ticks_last s)
  /\ U32.add (g_u32_ticks_last s) (g_u32_time_diff s') = counter
  /\ g_u32_ticks_last s' = counter
  /\ g_u32_cpu_ticks_now s' = tick.
Proof.
  intros Hc Hl. unfold HAL_GPIO_EXTI_Callback. rewrite Z.eqb_refl. simpl.
  repeat split.
  - apply (wrap_range (counter - g_u32_ticks_last s)).
  - apply (wrap_range (counter - g_u32_ticks_last s)).
  - intros Hle. now apply sub_le.
  - intros Hlt. now apply sub_gt.
  - now apply add_sub.
Qed.

(** C10: when the signal is stale or no period was ever captured, the
    read returns 0 and the whole state, the median window included, is
    left as it was; a read that changes the window was neither stale nor
    without a period, and then the window is the one the median module
    returns for the freshly converted sample. *)
Theorem stale_read_leaves_filter tick s :
  (stale tick s = true \/ g_u32_time_diff s = 0 ->
   fan_get_filtered_rpm tick s = Some (0, s))
  /\ (forall r s', fan_get_filtered_rpm tick s = Some (r, s') ->
      g_median s' <> g_median s ->
      stale tick s = false /\ g_u32_time_diff s <> 0
      /\ exists rpm, u32_rpm (g_u32_time_diff s) = Some rpm
         /\ g_median s' = snd (median_get_median rpm (g_median s))
         /\ r = U32.wrap (fst (median_get_median rpm (g_median s)))).
Proof.
  split.
  - intros [Hs|Hz]; [now apply rpm_stale | now apply rpm_no_period].
  - intros r s' Hrun Hne.
    destruct (stale tick s) eqn:Hs.
    { rewrite rpm_stale in Hrun by easy. now injection Hrun as <- <-. }
    destruct (Z.eq_dec (g_u32_time_diff s) 0) as [Hz|Hz].
    { rewrite rpm_no_period in Hrun by easy. now injection Hrun as <- <-. }
    rewrite rpm_fresh in Hrun by easy.
    destruct (u32_rpm (g_u32_time_diff s)) as [rpm|]; [|easy].
    unfold call_median in Hrun. injection Hrun as <- <-.
    repeat split; try easy. exists rpm. now destruct s.
Qed.

(** C7 (amended): for an even period p with 0 < p < 2^31 the RPM computed
    for p / 2 is twice the RPM computed for p, or one more (the integer
    division truncates), and exactly twice when 2 * p divides 60000000;
    a period of 0 reads as 0 RPM. *)
Theorem halving_period_doubles_rpm p tick s :
  0 < p < 2 ^ 31 -> Z.even p = true ->
  (exists r r2,
     u32_rpm p = Some r /\ u32_rpm (p / 2) = Some r2
     /\ (r2 = 2 * r \/ r2 = 2 * r + 1)
     /\ ((2 * p | 60000000) -> r2 = 2 * r))
  /\ (g_u32_time_diff s = 0 -> fan_get_filtered_rpm tick s = Some (0, s)).
Proof.
  intros Hp Hev. split; [|apply rpm_no_period].
  apply Zeven_bool_iff in Hev. destruct (Zeven_ex p Hev) as [h Hh].
  assert (Hh2 : p / 2 = h).
  { subst p. now rewrite Z.mul_comm, Z.div_mul. }
  exists (60000000 / (2 * p)), (60000000 / (2 * (p / 2))).
  rewrite !u32_rpm_exact by lia. repeat split.
  - rewrite Hh2, <- Hh. rewrite (Z.mul_comm 2 p), <- Z.div_div by lia.
    pose proof (Z.div_mod (60000000 / p) 2). 
    pose proof (Z.mod_pos_bound (60000000 / p) 2). lia.
  - intros [k Hk]. rewrite Hh2, <- Hh. rewrite Hk.
    rewrite Z.div_mul by lia.
    replace (k * (2 * p)) with (2 * k * p) by ring.
    rewrite Z.div_mul by lia. ring.
Qed.


(** *** The controller cycle *)

Lemma rpm_range tick s r s' :
  fan_get_filtered_rpm tick s = Some (r, s') -> U32.in_range r.
Proof.
  destruct (stale tick s) eqn:Hs.
  { rewrite rpm_stale by easy. intros [= <- _]. now compute. }
  destruct (Z.eq_dec (g_u32_time_diff s) 0) as [Hz|Hz].
  { rewrite rpm_no_period by easy. intros [= <- _]. now compute. }
  rewrite rpm_fresh by easy. destruct (u32_rpm _); [|easy].
  unfold call_median. intros [= <- _]. apply wrap_range.
Qed.

Lemma rpm_keeps tick s r s' :
  fan_get_filtered_rpm tick s = Some (r, s') ->
  g_fan_tim9_period s' = g_fan_tim9_period s
  /\ g_u32_target_rpm s' = g_u32_target_rpm s
  /\ f_esum s' = f_esum s.
Proof. intros Hrun. rewrite (rpm_frame _ _ _ _ Hrun). now destruct s. Qed.

(** The controller cycle, once the RPM read has returned. *)
Lemma pi_unfold tick s rpm s1 :
  fan_get_filtered_rpm tick s = Some (rpm, s1) ->
  let r := pi_limit (f_error (g_u32_target_rpm s) rpm)
             (f_output (g_u32_target_rpm s) rpm (f_esum s)) (f_esum s) in
  fan_update_pi_controller tick s =
    match F32.to_u32 (pwm_compare (g_fan_tim9_period s) (fst r)) with
    | Some ccr => Some (tt, set_tim9_ccr1 ccr (set_esum (snd r) s1))
    | None => None
    end.
Proof.
  intros Hrun r. destruct (rpm_keeps _ _ _ _ Hrun) as (Ep & Et & Ee).
  unfold fan_update_pi_controller, bind at 1. rewrite Hrun.
  unfold bind at 1, get. rewrite Et, Ee, Ep. fold r.
  destruct r as [out' esum']. cbn [fst snd].
  unfold bind, modify, defined. now destruct (F32.to_u32 _).
Qed.

Lemma state_ok_cycle tick s rpm s1 :
  state_ok s -> fan_get_filtered_rpm tick s = Some (rpm, s1) ->
  let r := pi_limit (f_error (g_u32_target_rpm s) rpm)
             (f_output (g_u32_target_rpm s) rpm (f_esum s)) (f_esum s) in
  exists ccr,
    F32.to_u32 (pwm_compare (g_fan_tim9_period s) (fst r)) = Some ccr
    /\ 0 <= ccr < 2 ^ 12
    /\ fan_update_pi_controller tick s
       = Some (tt, set_tim9_ccr1 ccr (set_esum (snd r) s1))
    /\ F32.leb F32.zero (fst r) = true
    /\ F32.leb (fst r) F32.hundred = true
    /\ shaped (snd r).
Proof.
  intros (Hp & Ht & He) Hrun r.
  pose proof (rpm_range _ _ _ _ Hrun) as Hr.
  destruct (pi_limit_spec _ _ _ Ht Hr He) as (Hb & Hn & H0 & H100 & Hs).
  fold r in Hb, Hn, H0, H100, Hs.
  destruct (pwm_compare_defined (fst r) Hb Hn) as (ccr & Hc & Hrange).
  exists ccr. rewrite (pi_unfold _ _ _ _ Hrun). fold r.
  rewrite Hp, Hc. easy.
Qed.

Lemma pi_reads_rpm tick s u s' :
  fan_update_pi_controller tick s = Some (u, s') ->
  exists rpm s1, fan_get_filtered_rpm tick s = Some (rpm, s1).
Proof.
  unfold fan_update_pi_controller, bind at 1.
  destruct (fan_get_filtered_rpm tick s) as [[rpm s1]|]; [eauto | easy].
Qed.

Lemma reachable_ok s : reachable s -> state_ok s.
Proof.
  induction 1 as [m | s t _ IH Ht | s pin counter tick _ IH _ _
                 | s tick r s' _ IH _ Hrun | s tick s' _ IH _ Hrun].
  - repeat split; compute; congruence.
  - destruct IH as (? & ? & ?). unfold state_ok. simpl. auto.
  - unfold HAL_GPIO_EXTI_Callback. now destruct (pin =? FAN_TACHO_OUTPUT).
  - destruct (rpm_keeps _ _ _ _ Hrun) as (Ep & Et & Ee).
    unfold state_ok. now rewrite Ep, Et, Ee.
  - destruct (pi_reads_rpm _ _ _ _ Hrun) as (rpm & s1 & Hrpm).
    destruct (state_ok_cycle tick s rpm s1 IH Hrpm)
      as (ccr & _ & _ & Hrun' & _ & _ & Hs).
    destruct (rpm_keeps _ _ _ _ Hrpm) as (Ep & Et & Ee).
    destruct IH as (Hp & Ht & He).
    rewrite Hrun' in Hrun. injection Hrun as <-.
    unfold state_ok; simpl. now rewrite Ep, Et.
Qed.


Lemma limit_cases target rpm esum :
  U32.in_range target -> U32.in_range rpm -> shaped esum ->
  if F32.leb F32.zero (f_output target rpm esum)
     && F32.leb (f_output target rpm esum) F32.hundred
  then F32.ltb F32.hundred (f_output target rpm esum) = false
       /\ F32.ltb (f_output target rpm esum) F32.zero = false
  else F32.ltb F32.hundred (f_output target rpm esum) = true
       \/ F32.ltb (f_output target rpm esum) F32.zero = true.
Proof.
  intros Ht Hr He. pose proof (f_output_shaped target rpm esum Ht Hr He) as Hs.
  set (raw := f_output target rpm esum) in *.
  destruct (F32.leb F32.zero raw) eqn:E0; destruct (F32.leb raw F32.hundred) eqn:E1;
    cbn [andb].
  - split; [now apply leb_not_above | now apply leb_zero_not_below].
  - destruct (F32.ltb F32.hundred raw) eqn:L1; [now left|].
    destruct (F32.ltb raw F32.zero) eqn:L0; [now right|].
    destruct (within_limits raw Hs L1 L0) as (_ & _ & _ & E). congruence.
  - destruct (F32.ltb F32.hundred raw) eqn:L1; [now left|].
    destruct (F32.ltb raw F32.zero) eqn:L0; [now right|].
    destruct (within_limits raw Hs L1 L0) as (_ & _ & E & _). congruence.
  - destruct (F32.ltb F32.hundred raw) eqn:L1; [now left|].
    destruct (F32.ltb raw F32.zero) eqn:L0; [now right|].
    destruct (within_limits raw Hs L1 L0) as (_ & _ & E & _). congruence.
Qed.

(** C1: in every controller cycle of a reachable state whose RPM read
    returns, the update runs to completion with
    error = (float)target - (float)filtered and
    raw output = Kp * error + Ki * integral, Kp, Ki and Ta being the
    binary32 values of 4/100, 3/100 and 2/100.  When the raw output lies in
    [0, 100] it is the output that is applied and the integral advances by
    error * Ta; otherwise the integral is left as it was and the output is
    100 (raw output above 100) or 0 (raw output below 0).  With a target of
    5000, a filtered RPM of 0 and an integral of 0 the raw output is 200:
    the output is 100 and the integral does not advance. *)
Theorem pi_controller_cycle tick s rpm s1 :
  reachable s ->
  fan_get_filtered_rpm tick s = Some (rpm, s1) ->
  exists output s2,
    fan_update_pi_controller tick s = Some (tt, s2)
    /\ F32.to_u32 (pwm_compare (g_fan_tim9_period s) output)
       = Some (g_fan_tim9_ccr1 s2)
    /\ f_error (g_u32_target_rpm s) rpm
       = F32.sub (F32.of_u32 (g_u32_target_rpm s)) (F32.of_u32 rpm)
    /\ f_output (g_u32_target_rpm s) rpm (f_esum s)
       = F32.add (F32.mul g_f_kp (f_error (g_u32_target_rpm s) rpm))
                 (F32.mul g_f_ki (f_esum s))
    /\ (if F32.leb F32.zero (f_output (g_u32_target_rpm s) rpm (f_esum s))
           && F32.leb (f_output (g_u32_target_rpm s) rpm (f_esum s)) F32.hundred
        then output = f_output (g_u32_target_rpm s) rpm (f_esum s)
             /\ f_esum s2 = F32.add (f_esum s)
                  (F32.mul (f_error (g_u32_target_rpm s) rpm) g_f_ta)
        else f_esum s2 = f_esum s
             /\ (   F32.ltb F32.hundred (f_output (g_u32_target_rpm s) rpm (f_esum s)) = true
                    /\ output = F32.hundred
                 \/ F32.ltb (f_output (g_u32_target_rpm s) rpm (f_esum s)) F32.zero = true
                    /\ output = F32.zero))
    /\ (g_u32_target_rpm s = 5000 -> rpm = 0 -> f_esum s = F32.zero ->
        f_output (g_u32_target_rpm s) rpm (f_esum s) = F32.of_u32 200
        /\ output = F32.hundred /\ f_esum s2 = f_esum s)
    /\ g_f_kp = F32.div (F32.of_u32 4) (F32.of_u32 100)
    /\ g_f_ki = F32.div (F32.of_u32 3) (F32.of_u32 100)
    /\ g_f_ta = F32.div (F32.of_u32 2) (F32.of_u32 100).
Proof.
  intros Hreach Hrun. pose proof (reachable_ok s Hreach) as Hok.
  destruct (state_ok_cycle tick s rpm s1 Hok Hrun)
    as (ccr & Hccr & _ & Hupd & _ & _ & _).
  destruct Hok as (Hp & Ht & He).
  pose proof (rpm_range _ _ _ _ Hrun) as Hr.
  pose proof (limit_cases _ _ _ Ht Hr He) as Hcases.
  set (t := g_u32_target_rpm s) in *. set (e := f_esum s) in *.
  exists (fst (pi_limit (f_error t rpm) (f_output t rpm e) e)),
         (set_tim9_ccr1 ccr
            (set_esum (snd (pi_limit (f_error t rpm) (f_output t rpm e) e)) s1)).
  split; [exact Hupd|]. split; [exact Hccr|].
  split; [reflexivity|]. split; [reflexivity|].
  split; [|split; [|apply pi_gains]].
  - unfold pi_limit. cbn [f_esum set_tim9_ccr1 set_esum].
    destruct (F32.leb F32.zero (f_output t rpm e)
              && F32.leb (f_output t rpm e) F32.hundred).
    + destruct Hcases as (-> & ->). now cbn [fst snd].
    + destruct (F32.ltb F32.hundred (f_output t rpm e)) eqn:L1; cbn [fst snd].
      * split; [reflexivity|]. now left.
      * destruct Hcases as [?| ->]; [easy|]. cbn [fst snd].
        split; [reflexivity|]. now right.
  - intros Et Er Ee. rewrite Et, Er, Ee. cbn [f_esum set_tim9_ccr1 set_esum].
    destruct saturation_scenario as (S1 & _ & S3 & S4).
    unfold limited_output, next_esum in S3, S4. rewrite S3, S4. now split.
Qed.


(** The limited output is the raw output cut at 100 and at 0. *)
Lemma limited_output_cases target rpm esum :
  limited_output target rpm esum
  = (if F32.ltb F32.hundred (f_output target rpm esum) then F32.hundred
     else if F32.ltb (f_output target rpm esum) F32.zero then F32.zero
     else f_output target rpm esum).
Proof.
  unfold limited_output, pi_limit.
  destruct (F32.ltb F32.hundred _); [reflexivity|].
  now destruct (F32.ltb _ F32.zero).
Qed.

(** C2: in every controller cycle of a reachable state whose RPM read
    returns, the output used to set the PWM compare register is the raw PI
    output limited to at most 100 and at least 0: it compares as
    0 <= output <= 100, and the compare register receives the value
    converted from it. *)
Theorem output_percentage_within_0_100 tick s rpm s1 :
  reachable s ->
  fan_get_filtered_rpm tick s = Some (rpm, s1) ->
  F32.leb F32.zero (limited_output (g_u32_target_rpm s) rpm (f_esum s)) = true
  /\ F32.leb (limited_output (g_u32_target_rpm s) rpm (f_esum s)) F32.hundred
     = true
  /\ limited_output (g_u32_target_rpm s) rpm (f_esum s)
     = (if F32.ltb F32.hundred (f_output (g_u32_target_rpm s) rpm (f_esum s))
        then F32.hundred
        else if F32.ltb (f_output (g_u32_target_rpm s) rpm (f_esum s)) F32.zero
        then F32.zero
        else f_output (g_u32_target_rpm s) rpm (f_esum s))
  /\ exists s2,
       fan_update_pi_controller tick s = Some (tt, s2)
       /\ F32.to_u32 (pwm_compare (g_fan_tim9_period s)
            (limited_output (g_u32_target_rpm s) rpm (f_esum s)))
          = Some (g_fan_tim9_ccr1 s2).
Proof.
  intros Hreach Hrun. pose proof (reachable_ok s Hreach) as Hok.
  destruct (state_ok_cycle tick s rpm s1 Hok Hrun)
    as (ccr & Hccr & _ & Hupd & H0 & H100 & _).
  split; [exact H0|]. split; [exact H100|].
  split; [apply limited_output_cases|].
  eexists. split; [exact Hupd | exact Hccr].
Qed.

(** C9: the PWM period register holds 399, so the period length is 400,
    and the compare register receives (float)400 * output / 100.0f
    converted to an integer, where the output is the raw output limited to
    [0, 100] beforehand; for a whole percentage k this is 400 * k / 100. *)
Theorem compare_value_is_scaled_percentage tick s rpm s1 :
  reachable s ->
  fan_get_filtered_rpm tick s = Some (rpm, s1) ->
  g_fan_tim9_period s = 399
  /\ U32.add (g_fan_tim9_period s) 1 = 400
  /\ (exists s2,
        fan_update_pi_controller tick s = Some (tt, s2)
        /\ F32.to_u32
             (F32.div
                (F32.mul (F32.of_u32 400)
                   (limited_output (g_u32_target_rpm s) rpm (f_esum s)))
                F32.hundred)
           = Some (g_fan_tim9_ccr1 s2))
  /\ F32.leb F32.zero (limited_output (g_u32_target_rpm s) rpm (f_esum s)) = true
  /\ F32.leb (limited_output (g_u32_target_rpm s) rpm (f_esum s)) F32.hundred
     = true
  /\ limited_output (g_u32_target_rpm s) rpm (f_esum s)
     = (if F32.ltb F32.hundred (f_output (g_u32_target_rpm s) rpm (f_esum s))
        then F32.hundred
        else if F32.ltb (f_output (g_u32_target_rpm s) rpm (f_esum s)) F32.zero
        then F32.zero
        else f_output (g_u32_target_rpm s) rpm (f_esum s))
  /\ (forall k, 0 <= k <= 100 ->
      F32.to_u32 (F32.div (F32.mul (F32.of_u32 400) (F32.of_u32 k)) F32.hundred)
      = Some (400 * k / 100)).
Proof.
  intros Hreach Hrun. pose proof (reachable_ok s Hreach) as Hok.
  destruct (state_ok_cycle tick s rpm s1 Hok Hrun)
    as (ccr & Hccr & _ & Hupd & H0 & H100 & _).
  destruct Hok as (Hp & _). rewrite Hp in Hccr.
  split; [exact Hp|]. split; [now rewrite Hp|].
  split; [eexists; split; [exact Hupd | exact Hccr]|].
  split; [exact H0|]. split; [exact H100|].
  split; [apply limited_output_cases|].
  intros k Hk. exact (pwm_whole_percent k Hk).
Qed.

End FanProperties.

(** ** Closed instances *)

(** C3: a fresh period of 2^31 + 1 ticks is converted with the wrapped
    divisor 2, which gives 30000000 RPM, where 60000000 / (2 * p) is 0; a
    period of 6000 ticks gives 5000 RPM.  (Every period below 2^31 ticks is
    converted as the formula says: [u32_rpm_exact].) *)
Theorem long_period_rpm_wraps :
  g_u32_time_diff late_edge_state = 2147483649
  /\ stale 2147483 late_edge_state = false
  /\ U32.mul 2 2147483649 = 2
  /\ u32_rpm 2147483649 = Some 30000000
  /\ 60000000 / (2 * 2147483649) = 0
  /\ fan_get_filtered_rpm 2147483 late_edge_state
     = call_median 30000000 late_edge_state
  /\ u32_rpm 6000 = Some 5000.
Proof. repeat split. Qed.

(** C4: with a stored period of 2^31 ticks and a fresh edge, neither guard
    returns early and the divisor [2u * g_u32_time_diff] is 0: the read
    divides by zero.  (The two early returns themselves are [rpm_stale] and
    [rpm_no_period].) *)
Theorem period_2_31_divides_by_zero :
  stale 2147483 restart_state = false
  /\ g_u32_time_diff restart_state = 2147483648
  /\ U32.mul 2 (g_u32_time_diff restart_state) = 0
  /\ fan_get_filtered_rpm 2147483 restart_state = None.
Proof. repeat split. Qed.

(** C6 (as stated): in [speeding_state] the signal is fresh and the period
    is 6000 ticks; two consecutive reads at the same tick return 1000 and
    then 5000, and each of them changes the median window. *)
Lemma consecutive_reads_differ :
  ~ (forall r1 s1 r2 s2,
       fan_get_filtered_rpm 48 speeding_state = Some (r1, s1) ->
       fan_get_filtered_rpm 48 s1 = Some (r2, s2) ->
       r1 = r2 /\ g_median s1 = g_median speeding_state
       /\ g_median s2 = g_median s1).
Proof.
  intros Hc.
  destruct (Hc 1000 (exec (fan_get_filtered_rpm 48) speeding_state)
               5000 (exec (fan_get_filtered_rpm 48)
                       (exec (fan_get_filtered_rpm 48) speeding_state))
               eq_refl eq_refl) as (E & _).
  discriminate E.
Qed.

(** C6 (amended): reading the median twice without an insert in between
    gives the same result and leaves the window as it was.  A read of the
    filtered RPM is such a read only when the signal is stale or no period
    has been captured: two consecutive reads then both return 0 and leave
    the state unchanged.  A read with a fresh, non-zero period first inserts
    the converted RPM into the window: after two consecutive reads the
    window holds the sample twice, and each read returned the median of
    the window it left. *)
Theorem filtered_rpm_read_inserts tick (s : fan_state) :
  (forall w, snd (Median.read w) = w
             /\ Median.read (snd (Median.read w)) = Median.read w)
  /\ (stale tick s = true \/ g_u32_time_diff s = 0 ->
      (r1 <- fan_get_filtered_rpm tick ;;
       r2 <- fan_get_filtered_rpm tick ;; ret (r1, r2)) s = Some ((0, 0), s))
  /\ (forall rpm,
      stale tick s = false -> g_u32_time_diff s <> 0 ->
      u32_rpm (g_u32_time_diff s) = Some rpm ->
      (r1 <- fan_get_filtered_rpm tick ;;
       r2 <- fan_get_filtered_rpm tick ;; ret (r1, r2)) s
      = Some ((U32.wrap (Median.median (Median.insert rpm (g_median s))),
               U32.wrap (Median.median
                 (Median.insert rpm (Median.insert rpm (g_median s))))),
              set_median (Median.insert rpm (Median.insert rpm (g_median s))) s)).
Proof.
  split; [now intros w|]. split.
  - intros Hq. unfold bind.
    assert (E : fan_get_filtered_rpm tick s = Some (0, s)).
    { destruct Hq; [now apply rpm_stale | now apply rpm_no_period]. }
    now rewrite E, E.
  - intros rpm Hs Hz Hrpm. unfold bind.
    rewrite rpm_fresh, Hrpm by easy. unfold call_median at 1. cbn [fst snd].
    rewrite rpm_fresh by (destruct s; easy).
    replace (g_u32_time_diff (set_median _ s)) with (g_u32_time_diff s)
      by now destruct s.
    rewrite Hrpm. unfold call_median, ret. simpl. now destruct s.
Qed.

(** C7 (as stated): the period 6004 is even, the RPM of 3002 ticks is 9993
    and the RPM of 6004 ticks is 4996, not half of it. *)
Lemma halving_6004_not_double :
  ~ (exists r r2, u32_rpm 6004 = Some r /\ u32_rpm (6004 / 2) = Some r2
                  /\ r2 = 2 * r).
Proof. intros (r & r2 & [= <-] & [= <-] & E). discriminate E. Qed.

(** ** Instances of the theorems *)

Lemma halving_period_doubles_rpm_witness :
  0 < 6000 < 2 ^ 31 /\ Z.even 6000 = true
  /\ (exists r r2,
        u32_rpm 6000 = Some r /\ u32_rpm (6000 / 2) = Some r2
        /\ (r2 = 2 * r \/ r2 = 2 * r + 1)
        /\ ((2 * 6000 | 60000000) -> r2 = 2 * r))
  /\ (g_u32_time_diff boot_state = 0 ->
      fan_get_filtered_rpm 7 boot_state = Some (0, boot_state)).
Proof.
  split; [lia|]. split; [reflexivity|].
  apply (halving_period_doubles_rpm 6000 7 boot_state); [lia | reflexivity].
Defined.

Lemma exti_period_is_wrapped_distance_witness :
  U32.in_range 1704
  /\ U32.in_range (g_u32_ticks_last first_edge_state)
  /\ g_u32_time_diff
       (HAL_GPIO_EXTI_Callback FAN_TACHO_OUTPUT 1704 50 first_edge_state) = 6000
  /\ g_u32_ticks_last
       (HAL_GPIO_EXTI_Callback FAN_TACHO_OUTPUT 1704 50 first_edge_state) = 1704.
Proof.
  assert (Hc : U32.in_range 1704) by (unfold U32.in_range, U32.modulus; lia).
  assert (Hl : U32.in_range (g_u32_ticks_last first_edge_state))
    by (unfold U32.in_range, U32.modulus; simpl; lia).
  split; [exact Hc|]. split; [exact Hl|].
  destruct (exti_period_is_wrapped_distance 1704 50 first_edge_state Hc Hl)
    as (_ & _ & _ & Hwrap & _ & Hlast & _).
  split; [|exact Hlast].
  rewrite Hwrap; [reflexivity | simpl; lia].
Defined.

Lemma median_of_inserted_samples_witness :
  (0 < 5)%nat /\ noisy_history <> []
  /\ length noisy_history = 12%nat
  /\ most_recent 5 noisy_history = noisy_samples
  /\ Median.median (Median.inserts noisy_history (Median.init 5)) = 5000
  /\ Median.is_median 5000 noisy_samples.
Proof.
  assert (HN : (0 < 5)%nat) by lia.
  assert (Hne : noisy_history <> []) by discriminate.
  split; [exact HN|]. split; [exact Hne|]. split; [reflexivity|].
  destruct (median_of_inserted_samples 5 noisy_history HN Hne)
    as (_ & _ & Hlast & _).
  destruct (Hlast [900; 30000000; 950; 1000; 1100; 1200; 1300] noisy_samples
              eq_refl eq_refl) as (Hrec & Hmed & Hrank).
  split; [exact Hrec|]. split; [exact Hmed|].
  rewrite Hmed in Hrank. exact Hrank.
Defined.

Lemma pi_controller_cycle_witness :
  reachable demand_state
  /\ fan_get_filtered_rpm 2000 demand_state = Some (0, demand_state)
  /\ exists output s2,
      fan_update_pi_controller 2000 demand_state = Some (tt, s2)
      /\ F32.to_u32 (pwm_compare (g_fan_tim9_period demand_state) output)
         = Some (g_fan_tim9_ccr1 s2)
      /\ output = F32.hundred /\ f_esum s2 = F32.zero
      /\ g_fan_tim9_ccr1 s2 = 400.
Proof.
  assert (Hreach : reachable demand_state).
  { apply reach_target; [apply reach_init | unfold U32.in_range, U32.modulus; lia]. }
  assert (Hrun : fan_get_filtered_rpm 2000 demand_state = Some (0, demand_state))
    by reflexivity.
  split; [exact Hreach|]. split; [exact Hrun|].
  destruct (pi_controller_cycle 2000 demand_state 0 demand_state Hreach Hrun)
    as (output & s2 & Hupd & Hccr & _ & _ & _ & Hsat & _).
  destruct (Hsat eq_refl eq_refl eq_refl) as (_ & Hout & Hes).
  exists output, s2. repeat split; try easy.
  rewrite Hout in Hccr. injection Hccr as <-. reflexivity.
Defined.

Lemma output_percentage_within_0_100_witness :
  reachable demand_state
  /\ fan_get_filtered_rpm 2000 demand_state = Some (0, demand_state)
  /\ F32.leb F32.zero (limited_output 5000 0 F32.zero) = true
  /\ F32.leb (limited_output 5000 0 F32.zero) F32.hundred = true
  /\ exists s2,
       fan_update_pi_controller 2000 demand_state = Some (tt, s2)
       /\ F32.to_u32 (pwm_compare 399 (limited_output 5000 0 F32.zero))
          = Some (g_fan_tim9_ccr1 s2).
Proof.
  assert (Hreach : reachable demand_state).
  { apply reach_target; [apply reach_init | unfold U32.in_range, U32.modulus; lia]. }
  assert (Hrun : fan_get_filtered_rpm 2000 demand_state = Some (0, demand_state))
    by reflexivity.
  split; [exact Hreach|]. split; [exact Hrun|].
  destruct (output_percentage_within_0_100 2000 demand_state 0 demand_state
              Hreach Hrun) as (H0 & H100 & _ & Hex).
  split; [exact H0|]. split; [exact H100|]. exact Hex.
Defined.

Lemma compare_value_is_scaled_percentage_witness :
  reachable demand_state
  /\ fan_get_filtered_rpm 2000 demand_state = Some (0, demand_state)
  /\ exists s2,
       fan_update_pi_controller 2000 demand_state = Some (tt, s2)
       /\ F32.to_u32
            (F32.div (F32.mul (F32.of_u32 400) (limited_output 5000 0 F32.zero))
               F32.hundred)
          = Some (g_fan_tim9_ccr1 s2).
Proof.
  assert (Hreach : reachable demand_state).
  { apply reach_target; [apply reach_init | unfold U32.in_range, U32.modulus; lia]. }
  assert (Hrun : fan_get_filtered_rpm 2000 demand_state = Some (0, demand_state))
    by reflexivity.
  split; [exact Hreach|]. split; [exact Hrun|].
  destruct (compare_value_is_scaled_percentage 2000 demand_state 0 demand_state
              Hreach Hrun) as (_ & _ & Hex & _).
  exact Hex.
Defined.

(** * Further properties of the fan module *)

(** ** The period to RPM conversion *)

Lemma u32_rpm_none_iff p :
  U32.in_range p -> (u32_rpm p = None <-> p = 0 \/ p = 2 ^ 31).
Proof.
  unfold U32.in_range, U32.modulus. intros Hp.
  unfold u32_rpm, U32.div, U32.mul, U32.wrap, U32.modulus.
  destruct (Z.eqb_spec ((2 * p) mod 2 ^ 32) 0) as [E|E].
  - split; [intros _|easy].
    apply Z.mod_divide in E; [|lia]. destruct E as [k Hk]. lia.
  - split; [easy|]. intros [-> | ->]; exfalso; apply E; reflexivity.
Qed.

(** X2: whatever 32-bit period is stored, also one of 2^31 ticks or more
    whose doubling wraps around, an RPM sample that is computed lies
    between 0 and 30,000,000 (the value for a divisor of 2). *)
Theorem rpm_sample_ceiling p r :
  U32.in_range p -> u32_rpm p = Some r -> 0 <= r <= 30000000.
Proof.
  unfold U32.in_range, U32.modulus. intros Hp.
  unfold u32_rpm, U32.div, U32.mul, U32.wrap, U32.modulus.
  destruct (Z.eqb_spec ((2 * p) mod 2 ^ 32) 0) as [E|E]; [easy|].
  intros [= <-].
  assert (Hd : 2 <= (2 * p) mod 2 ^ 32).
  { pose proof (Z.mod_pos_bound (2 * p) (2 ^ 32) ltac:(lia)).
    destruct (Z.eq_dec ((2 * p) mod 2 ^ 32) 1) as [E1|]; [|lia].
    exfalso. pose proof (Z.div_mod (2 * p) (2 ^ 32) ltac:(lia)) as Hdm.
    rewrite E1 in Hdm. change (2 ^ 32) with (2 * 2147483648) in Hdm. lia. }
  change (60 * 1000000 mod 2 ^ 32) with 60000000. split.
  - apply Z.div_pos; lia.
  - apply Z.div_le_upper_bound; lia.
Qed.

Lemma u32_rpm_half p : 0 < p < 2 ^ 31 -> u32_rpm p = Some (30000000 / p).
Proof.
  intros Hp. rewrite u32_rpm_exact by lia.
  change 60000000 with (2 * 30000000).
  now rewrite Z.div_mul_cancel_l by lia.
Qed.

(** X3: for periods below 2^31 ticks the RPM sample is 30,000,000 / period
    rounded down; a longer period never gives a larger sample, and the
    sample is 0 exactly when the period is above 30,000,000 ticks (a fan
    slower than one revolution per minute). *)
Theorem rpm_sample_antitone p q :
  0 < p <= q -> q < 2 ^ 31 ->
  u32_rpm p = Some (30000000 / p)
  /\ u32_rpm q = Some (30000000 / q)
  /\ 0 <= 30000000 / q <= 30000000 / p
  /\ (30000000 / q = 0 <-> 30000000 < q).
Proof.
  intros Hpq Hq. rewrite !u32_rpm_half by lia. repeat split.
  - apply Z.div_pos; lia.
  - apply Z.div_le_compat_l; lia.
  - intros E. destruct (Z_le_gt_dec q 30000000) as [Hle|]; [|lia].
    assert (1 <= 30000000 / q) by (apply Z.div_le_lower_bound; lia). lia.
  - intros Hlt. apply Z.div_small. lia.
Qed.

(** ** What the operations keep *)

Section CaptureInvariant.
Context `{MedianModule}.

Lemma pi_frame tick s s' :
  fan_update_pi_controller tick s = Some (tt, s') ->
  g_u32_ticks_last s' = g_u32_ticks_last s
  /\ g_u32_time_diff s' = g_u32_time_diff s
  /\ g_u32_cpu_ticks_now s' = g_u32_cpu_ticks_now s
  /\ g_u32_target_rpm s' = g_u32_target_rpm s
  /\ g_fan_tim9_period s' = g_fan_tim9_period s.
Proof.
  intros Hrun.
  destruct (pi_reads_rpm _ _ _ _ Hrun) as (rpm & s1 & Hrpm).
  pose proof (pi_unfold _ _ _ _ Hrpm) as Hu. cbv zeta in Hu.
  rewrite Hu in Hrun. destruct (F32.to_u32 _); [|easy].
  injection Hrun as <-. rewrite (rpm_frame _ _ _ _ Hrpm). now destruct s.
Qed.

Lemma reachable_capture s : reachable s -> capture_ok s.
Proof.
  induction 1 as [m | s t _ IH Ht | s pin counter tick _ IH Hc Ht
                 | s tick r s' _ IH _ Hrun | s tick s' _ IH _ Hrun].
  - repeat split; compute; congruence.
  - exact IH.
  - unfold HAL_GPIO_EXTI_Callback.
    destruct (pin =? FAN_TACHO_OUTPUT); [|exact IH].
    unfold capture_ok; simpl. repeat split; try apply Hc; try apply Ht.
    + apply (wrap_range (counter - g_u32_ticks_last s)).
    + apply (wrap_range (counter - g_u32_ticks_last s)).
  - rewrite (rpm_frame _ _ _ _ Hrun). now destruct s.
  - destruct (pi_frame _ _ _ Hrun) as (E1 & E2 & E3 & _).
    unfold capture_ok. now rewrite E1, E2, E3.
Qed.

(** The read fails only on the division by zero of a fresh period of
    2^31 ticks. *)
Lemma rpm_none_iff tick s :
  reachable s ->
  fan_get_filtered_rpm tick s = None
  <-> stale tick s = false /\ g_u32_time_diff s = 2 ^ 31.
Proof.
  intros Hreach. destruct (reachable_capture s Hreach) as (_ & Hd & _).
  destruct (stale tick s) eqn:Hs.
  { rewrite rpm_stale by easy. split; [easy | now intros [? _]]. }
  destruct (Z.eq_dec (g_u32_time_diff s) 0) as [Hz|Hz].
  { rewrite rpm_no_period by easy. split; [easy|]. intros [_ E].
    rewrite Hz in E. discriminate E. }
  rewrite rpm_fresh by easy.
  pose proof (u32_rpm_none_iff _ Hd) as Hnone.
  destruct (u32_rpm (g_u32_time_diff s)) as [rpm|].
  - split; [easy|]. intros [_ E]. destruct Hnone as [_ Hn].
    discriminate (Hn (or_intror E)).
  - split; [|easy]. intros _. split; [easy|].
    destruct Hnone as [Hn _]. destruct (Hn eq_refl); [contradiction | easy].
Qed.



(** X1: in a state reached from initialisation, reading the filtered RPM
    and running a controller cycle are both defined, except in one case:
    the signal is fresh and the stored period is exactly 2^31 ticks, where
    both divide by zero.  In particular the float to integer conversion of
    the compare value never fails. *)
Theorem cycle_defined_iff tick s :
  reachable s ->
  (fan_get_filtered_rpm tick s = None
   <-> stale tick s = false /\ g_u32_time_diff s = 2 ^ 31)
  /\ (fan_update_pi_controller tick s = None
      <-> stale tick s = false /\ g_u32_time_diff s = 2 ^ 31).
Proof.
  intros Hreach. pose proof (rpm_none_iff tick s Hreach) as Hrpm.
  split; [exact Hrpm|].
  destruct (fan_get_filtered_rpm tick s) as [[rpm s1]|] eqn:Hrun.
  - destruct (state_ok_cycle tick s rpm s1 (reachable_ok s Hreach) Hrun)
      as (ccr & _ & _ & Hupd & _).
    rewrite Hupd. split; [easy|]. intros Hq. apply Hrpm in Hq. discriminate Hq.
  - assert (Hupd : fan_update_pi_controller tick s = None).
    { unfold fan_update_pi_controller, bind at 1. now rewrite Hrun. }
    rewrite Hupd. split; [intros _; now apply Hrpm | easy].
Qed.

(** X7: the interrupt side and the main-loop side write disjoint parts of
    the state.  The EXTI callback leaves the target, the integral, the PWM
    registers and the median window alone, and does nothing at all for
    another pin; a controller cycle leaves the three capture variables, the
    target and the PWM period alone; an RPM read changes nothing but the
    median window. *)
Theorem writers_are_disjoint pin counter tick s :
  (let s' := HAL_GPIO_EXTI_Callback pin counter tick s in
   g_u32_target_rpm s' = g_u32_target_rpm s
   /\ f_esum s' = f_esum s
   /\ g_fan_tim9_period s' = g_fan_tim9_period s
   /\ g_fan_tim9_ccr1 s' = g_fan_tim9_ccr1 s
   /\ g_median s' = g_median s
   /\ (pin <> FAN_TACHO_OUTPUT -> s' = s))
  /\ (forall s', fan_update_pi_controller tick s = Some (tt, s') ->
      g_u32_ticks_last s' = g_u32_ticks_last s
      /\ g_u32_time_diff s' = g_u32_time_diff s
      /\ g_u32_cpu_ticks_now s' = g_u32_cpu_ticks_now s
      /\ g_u32_target_rpm s' = g_u32_target_rpm s
      /\ g_fan_tim9_period s' = g_fan_tim9_period s)
  /\ (forall r s', fan_get_filtered_rpm tick s = Some (r, s') ->
      s' = set_median (g_median s') s).
Proof.
  split; [|split].
  - unfold HAL_GPIO_EXTI_Callback.
    destruct (Z.eqb_spec pin FAN_TACHO_OUTPUT); now repeat split.
  - intros s'. apply pi_frame.
  - intros r s'. apply rpm_frame.
Qed.

(** ** Edges and reads *)

Lemma exti_twice_diff c d t0 t1 s :
  0 <= d < 2 ^ 32 ->
  g_u32_time_diff
    (HAL_GPIO_EXTI_Callback FAN_TACHO_OUTPUT (U32.add c d) t1
       (HAL_GPIO_EXTI_Callback FAN_TACHO_OUTPUT c t0 s)) = d.
Proof.
  intros Hd. unfold HAL_GPIO_EXTI_Callback. rewrite Z.eqb_refl. simpl.
  unfold U32.sub, U32.add, U32.wrap, U32.modulus.
  rewrite Zminus_mod_idemp_l. replace (c + d - c) with d by ring.
  apply Z.mod_small. lia.
Qed.

Lemma exti_elapsed counter t0 d s :
  0 <= d < 2 ^ 32 ->
  U32.sub (U32.add t0 d)
    (g_u32_cpu_ticks_now
       (HAL_GPIO_EXTI_Callback FAN_TACHO_OUTPUT counter t0 s)) = d.
Proof.
  intros Hd. unfold HAL_GPIO_EXTI_Callback. rewrite Z.eqb_refl. simpl.
  unfold U32.sub, U32.add, U32.wrap, U32.modulus.
  rewrite Zminus_mod_idemp_l. replace (t0 + d - t0) with d by ring.
  apply Z.mod_small. lia.
Qed.

(** X5: after a tachometer edge at millisecond tick t0, a read d
    milliseconds later (d below 2^32) finds the signal stale exactly when
    d is above 1000, also when the tick counter has rolled over in between;
    a stale read returns 0 and leaves the state as it was. *)
Theorem stale_after_edge counter t0 d s :
  U32.in_range t0 -> 0 <= d < 2 ^ 32 ->
  let s' := HAL_GPIO_EXTI_Callback FAN_TACHO_OUTPUT counter t0 s in
  (stale (U32.add t0 d) s' = true <-> 1000 < d)
  /\ (1000 < d -> fan_get_filtered_rpm (U32.add t0 d) s' = Some (0, s')).
Proof.
  intros Ht Hd s'.
  assert (Hs : stale (U32.add t0 d) s' = true <-> 1000 < d).
  { unfold stale. subst s'. rewrite exti_elapsed by easy. apply Z.ltb_lt. }
  split; [exact Hs|]. intros Hlt. apply rpm_stale. now apply Hs.
Qed.

(** X4: two successive tachometer edges d timer ticks apart, d below 2^31,
    store the period d, also when the 32-bit timer counter rolled over
    between them; a read within 1000 ms of the second edge then feeds the
    sample 30,000,000 / d to the median filter and returns the filter's
    answer. *)
Theorem two_edges_give_sample c d t0 t1 dt s :
  U32.in_range c -> 0 < d < 2 ^ 31 ->
  U32.in_range t1 -> 0 <= dt <= 1000 ->
  let s2 := HAL_GPIO_EXTI_Callback FAN_TACHO_OUTPUT (U32.add c d) t1
              (HAL_GPIO_EXTI_Callback FAN_TACHO_OUTPUT c t0 s) in
  g_u32_time_diff s2 = d
  /\ fan_get_filtered_rpm (U32.add t1 dt) s2 = call_median (30000000 / d) s2.
Proof.
  intros Hc Hd Ht Hdt s2.
  assert (Hdiff : g_u32_time_diff s2 = d)
    by (subst s2; apply exti_twice_diff; lia).
  split; [exact Hdiff|].
  assert (Hfresh : stale (U32.add t1 dt) s2 = false).
  { unfold stale. subst s2. rewrite exti_elapsed by lia. apply Z.ltb_ge. lia. }
  rewrite rpm_fresh by (rewrite ?Hdiff; easy || lia).
  now rewrite Hdiff, u32_rpm_half by lia.
Qed.

(** X6: the first tachometer edge after initialisation stores the raw
    timer count as the period, since the previous reading starts at 0: a
    read within 1000 ms of it feeds 30,000,000 / counter to the median
    filter, a value that reflects the time since the timer was started and
    not the speed of the fan.  This is for a count below 2^31; from 2^31 on
    the doubling of the period wraps around (C3, C4). *)
Theorem first_edge_period counter tick dt m :
  0 < counter < 2 ^ 31 -> U32.in_range tick -> 0 <= dt <= 1000 ->
  let s' := HAL_GPIO_EXTI_Callback FAN_TACHO_OUTPUT counter tick
              (fan_control_init (power_on m)) in
  g_u32_time_diff s' = counter
  /\ fan_get_filtered_rpm (U32.add tick dt) s'
     = call_median (30000000 / counter) s'.
Proof.
  intros Hc Ht Hdt s'.
  assert (Hdiff : g_u32_time_diff s' = counter).
  { subst s'. unfold HAL_GPIO_EXTI_Callback. rewrite Z.eqb_refl.
    change (g_u32_time_diff _) with (U32.sub counter 0).
    unfold U32.sub. rewrite Z.sub_0_r. apply wrap_small.
    unfold U32.in_range, U32.modulus. lia. }
  split; [exact Hdiff|].
  assert (Hfresh : stale (U32.add tick dt) s' = false).
  { unfold stale. subst s'. rewrite exti_elapsed by lia. apply Z.ltb_ge. lia. }
  rewrite rpm_fresh by (rewrite ?Hdiff; easy || lia).
  now rewrite Hdiff, u32_rpm_half by lia.
Qed.

End CaptureInvariant.

(** * Further properties of binary32 rounding

    Exactness of the normalising shift, a bound that rounding never
    passes, and the smallest exponent of a result. *)

Section Sticky.

Lemma mod_pow2_split m i j :
  0 <= i -> 0 <= j -> m mod 2 ^ (i + j) = 0 ->
  m mod 2 ^ i = 0 /\ (m / 2 ^ i) mod 2 ^ j = 0.
Proof.
  intros Hi Hj Hm.
  assert (Pi : 0 < 2 ^ i) by (apply Z.pow_pos_nonneg; lia).
  assert (Pj : 0 < 2 ^ j) by (apply Z.pow_pos_nonneg; lia).
  apply Z.mod_divide in Hm; [|rewrite Z.pow_add_r by lia; lia].
  destruct Hm as [k Hk]. rewrite Z.pow_add_r in Hk by lia.
  assert (E : m = (k * 2 ^ j) * 2 ^ i) by lia.
  split.
  - rewrite E. apply Z.mod_mul. lia.
  - rewrite E, Z.div_mul by lia. apply Z.mod_mul. lia.
Qed.

Lemma shr_1_sticky mrs :
  0 <= shr_m mrs -> shr_r mrs = false -> shr_s mrs = false ->
  shr_m mrs mod 2 ^ 1 = 0 ->
  shr_r (shr_1 mrs) = false /\ shr_s (shr_1 mrs) = false.
Proof.
  destruct mrs as [m r s]. simpl. intros Hm -> -> Hmod.
  destruct m as [|[p|p|]|p]; simpl; try easy; try lia.
  exfalso. change (Zpos p~1) with (2 * Zpos p + 1) in Hmod.
  change (2 ^ 1) with 2 in Hmod.
  rewrite Z.add_comm, Z.mul_comm, Z.mod_add in Hmod by lia. discriminate Hmod.
Qed.

(** Shifting out zero bits only leaves an exact location. *)
Lemma iter_shr_1_sticky p : forall mrs,
  0 <= shr_m mrs -> shr_r mrs = false -> shr_s mrs = false ->
  shr_m mrs mod 2 ^ Zpos p = 0 ->
  shr_r (SpecFloat.iter_pos shr_1 p mrs) = false
  /\ shr_s (SpecFloat.iter_pos shr_1 p mrs) = false.
Proof.
  induction p as [p IH|p IH|]; intros mrs Hm Hr Hs Hmod; simpl.
  - replace (Zpos p~1) with (1 + (Zpos p + Zpos p)) in Hmod by lia.
    apply mod_pow2_split in Hmod; [|lia..]. destruct Hmod as (H1 & H2).
    apply mod_pow2_split in H2; [|lia..]. destruct H2 as (H2 & H3).
    destruct (shr_1_sticky mrs Hm Hr Hs H1) as (Hr1 & Hs1).
    assert (Hm1 : 0 <= shr_m (shr_1 mrs)).
    { rewrite shr_1_m by easy. now apply Z.shiftr_nonneg. }
    assert (E1 : shr_m (shr_1 mrs) = shr_m mrs / 2 ^ 1).
    { rewrite shr_1_m by easy. now rewrite Z.shiftr_div_pow2 by lia. }
    rewrite <- E1 in H2, H3.
    destruct (IH (shr_1 mrs) Hm1 Hr1 Hs1 H2) as (Hr2 & Hs2).
    apply IH; try easy.
    + rewrite iter_shr_1_m by easy. now apply Z.shiftr_nonneg.
    + rewrite iter_shr_1_m by easy. now rewrite Z.shiftr_div_pow2 by lia.
  - replace (Zpos p~0) with (Zpos p + Zpos p) in Hmod by lia.
    apply mod_pow2_split in Hmod; [|lia..]. destruct Hmod as (H1 & H2).
    destruct (IH mrs Hm Hr Hs H1) as (Hr2 & Hs2).
    apply IH; try easy.
    + rewrite iter_shr_1_m by easy. now apply Z.shiftr_nonneg.
    + rewrite iter_shr_1_m by easy. now rewrite Z.shiftr_div_pow2 by lia.
  - now apply shr_1_sticky.
Qed.

Lemma loc_of_shr_record_of_loc m l :
  loc_of_shr_record (shr_record_of_loc m l) = l.
Proof. destruct l as [|[]]; reflexivity. Qed.

(** The normalising shift in detail: nothing happens when the mantissa
    already fits, otherwise the mantissa is divided by a power of two and
    the location stays exact when the division is. *)
Lemma shr_fexp_shift m e l :
  0 <= m ->
  let n := Z.max (Zdigits2 m + e - 24) (-149) - e in
  let r := shr_fexp F32.prec F32.emax m e l in
  -149 <= snd r
  /\ (n <= 0 -> snd r = e /\ shr_m (fst r) = m
               /\ loc_of_shr_record (fst r) = l)
  /\ (0 < n -> snd r = e + n /\ shr_m (fst r) = m / 2 ^ n
              /\ (l = loc_Exact -> m mod 2 ^ n = 0 ->
                  loc_of_shr_record (fst r) = loc_Exact)).
Proof.
  intros Hm n r. subst r. unfold shr_fexp, shr.
  replace (fexp F32.prec F32.emax (Zdigits2 m + e))
    with (Z.max (Zdigits2 m + e - 24) (-149)) by reflexivity.
  fold n. destruct n as [|p|p] eqn:En; cbn [fst snd].
  - rewrite shr_record_of_loc_m, loc_of_shr_record_of_loc.
    repeat split; try easy; lia.
  - split; [lia|]. split; [lia|]. intros _.
    rewrite iter_shr_1_m by now rewrite shr_record_of_loc_m.
    rewrite shr_record_of_loc_m, Z.shiftr_div_pow2 by lia.
    repeat split. intros -> Hmod.
    destruct (iter_shr_1_sticky p (shr_record_of_loc m loc_Exact))
      as (Hr & Hs); try easy.
    destruct (SpecFloat.iter_pos shr_1 p _) as [m' r' s'].
    simpl in Hr, Hs. now subst.
  - rewrite shr_record_of_loc_m, loc_of_shr_record_of_loc.
    repeat split; try easy; lia.
Qed.

End Sticky.

Section Monotone.

Lemma scaled_mono m m' e : m <= m' -> scaled m e <= scaled m' e.
Proof.
  intros Hle. unfold scaled. apply Z.mul_le_mono_nonneg_r; [|exact Hle].
  apply Z.pow_nonneg. lia.
Qed.

Lemma scaled_shift m e n :
  0 <= m -> 0 < n -> -400 <= e -> scaled (m / 2 ^ n) (e + n) <= scaled m e.
Proof.
  intros Hm Hn He. unfold scaled.
  replace (e + n + 400) with (n + (e + 400)) by ring.
  rewrite Z.pow_add_r by lia.
  assert (0 < 2 ^ n) by (apply Z.pow_pos_nonneg; lia).
  assert (0 < 2 ^ (e + 400)) by (apply Z.pow_pos_nonneg; lia).
  pose proof (Z.mul_div_le m (2 ^ n) ltac:(lia)). nia.
Qed.

(** Rounding to nearest never goes past a representable number that
    bounds the exact value. *)
Lemma round_aux_at_most sx mx ex lx mc ec :
  0 <= mx -> 0 < mc < 2 ^ 24 -> -149 <= ec -> -400 <= ex ->
  match lx with
  | loc_Exact => scaled mx ex <= scaled mc ec
  | loc_Inexact _ => scaled (mx + 1) ex <= scaled mc ec
  end ->
  at_most mc ec (binary_round_aux F32.prec F32.emax sx mx ex lx).
Proof.
  intros Hm Hmc Hec Hex Hle. unfold binary_round_aux.
  pose proof (shr_fexp_shift mx ex lx Hm) as H1. cbv zeta in H1.
  destruct (shr_fexp F32.prec F32.emax mx ex lx) as [mrs1 e1].
  cbn [fst snd] in H1. destruct H1 as (He1 & Hno & Hsh).
  set (m2 := round_nearest_even (shr_m mrs1) (loc_of_shr_record mrs1)).
  assert (Hle' : scaled mx ex <= scaled mc ec).
  { destruct lx; [exact Hle|].
    etransitivity; [|exact Hle]. apply scaled_mono. lia. }
  assert (H2 : 0 <= m2 /\ scaled m2 e1 <= scaled mc ec /\ -400 <= e1).
  { set (n := Z.max (Zdigits2 mx + ex - 24) (-149) - ex) in *.
    destruct (Z_le_gt_dec n 0) as [Hn|Hn].
    - destruct (Hno Hn) as (-> & E & L). subst m2. rewrite E, L.
      destruct lx as [|c]; simpl.
      + repeat split; try easy.
      + assert (Hc : (match c with
                      | Eq => if Z.even mx then mx else mx + 1
                      | Lt => mx
                      | Gt => mx + 1
                      end) <= mx + 1)
          by (destruct c; try lia; destruct (Z.even mx); lia).
        assert (Hc0 : 0 <= (match c with
                      | Eq => if Z.even mx then mx else mx + 1
                      | Lt => mx
                      | Gt => mx + 1
                      end))
          by (destruct c; try lia; destruct (Z.even mx); lia).
        repeat split; try easy.
        etransitivity; [apply scaled_mono; exact Hc | exact Hle].
    - destruct (Hsh ltac:(lia)) as (-> & E & Hexact).
      assert (PN : 0 < 2 ^ n) by (apply Z.pow_pos_nonneg; lia).
      assert (PP : 0 < 2 ^ (ex + 400)) by (apply Z.pow_pos_nonneg; lia).
      assert (Hgrid : ex + n <= ec).
      { destruct (Z.eq_dec mx 0) as [->|Hnz].
        { assert (n = Z.max (0 + ex - 24) (-149) - ex) by reflexivity. lia. }
        assert (Hlow : 2 ^ (Zdigits2 mx - 1) <= mx).
        { destruct mx as [|p|p]; [easy | apply digits_le | lia]. }
        pose proof (Zdigits2_nonneg mx).
        assert (Hd1 : 1 <= Zdigits2 mx) by (destruct mx; simpl in *; lia).
        assert (Hchain : 2 ^ (Zdigits2 mx - 1 + (ex + 400))
                         < 2 ^ (24 + (ec + 400))).
        { rewrite (Z.pow_add_r 2 (Zdigits2 mx - 1) (ex + 400)) by lia.
          rewrite (Z.pow_add_r 2 24 (ec + 400)) by lia.
          unfold scaled in Hle'.
          assert (0 < 2 ^ (ec + 400)) by (apply Z.pow_pos_nonneg; lia).
          assert (2 ^ (Zdigits2 mx - 1) * 2 ^ (ex + 400) <= mx * 2 ^ (ex + 400))
            by (apply Z.mul_le_mono_nonneg_r; lia).
          assert (mc * 2 ^ (ec + 400) < 2 ^ 24 * 2 ^ (ec + 400))
            by (apply Z.mul_lt_mono_pos_r; lia).
          lia. }
        apply Z.pow_lt_mono_r_iff in Hchain; lia. }
      set (C := mc * 2 ^ (ec - (ex + n))).
      assert (HC : scaled mc ec = C * 2 ^ n * 2 ^ (ex + 400)).
      { unfold scaled, C. rewrite <- !Z.mul_assoc, <- !Z.pow_add_r by lia.
        f_equal. f_equal. lia. }
      assert (Hm1 : shr_m mrs1 * 2 ^ n <= mx)
        by (rewrite E, Z.mul_comm; apply Z.mul_div_le; lia).
      assert (Hm10 : 0 <= shr_m mrs1) by (rewrite E; apply Z.div_pos; lia).
      assert (HmxC : mx <= C * 2 ^ n).
      { apply (Z.mul_le_mono_pos_r _ _ (2 ^ (ex + 400))); [exact PP|].
        rewrite <- HC. exact Hle'. }
      assert (Hbound : m2 <= C /\ 0 <= m2).
      { subst m2.
        destruct (round_nearest_even_cases (shr_m mrs1) (loc_of_shr_record mrs1))
          as [Er|Er].
        - rewrite Er. split; [nia | easy].
        - rewrite Er. split; [|lia].
          destruct lx as [|c].
          + destruct (Z.eq_dec (mx mod 2 ^ n) 0) as [Hz|Hz].
            * rewrite (Hexact eq_refl Hz) in Er. simpl in Er. lia.
            * pose proof (Z.div_mod mx (2 ^ n) ltac:(lia)) as Hdm.
              pose proof (Z.mod_pos_bound mx (2 ^ n) PN). rewrite <- E in Hdm.
              nia.
          + assert (mx + 1 <= C * 2 ^ n).
            { apply (Z.mul_le_mono_pos_r _ _ (2 ^ (ex + 400))); [exact PP|].
              rewrite <- HC. exact Hle. }
            nia. }
      destruct Hbound as (Hb & Hb0). split; [exact Hb0|]. split; [|lia].
      rewrite HC. unfold scaled.
      replace (ex + n + 400) with (n + (ex + 400)) by ring.
      rewrite (Z.pow_add_r 2 n (ex + 400)), Z.mul_assoc by lia.
      apply Z.mul_le_mono_nonneg_r; [lia|].
      apply Z.mul_le_mono_nonneg_r; [lia | exact Hb]. }
  destruct H2 as (Hm2 & Hle2 & He1').
  pose proof (shr_fexp_shift m2 e1 loc_Exact Hm2) as H3. cbv zeta in H3.
  destruct (shr_fexp F32.prec F32.emax m2 e1 loc_Exact) as [mrs3 e3].
  cbn [fst snd] in H3. destruct H3 as (_ & Hno3 & Hsh3).
  assert (H4 : scaled (shr_m mrs3) e3 <= scaled mc ec).
  { destruct (Z_le_gt_dec (Z.max (Zdigits2 m2 + e1 - 24) (-149) - e1) 0) as [Hn|Hn].
    - destruct (Hno3 Hn) as (-> & -> & _). exact Hle2.
    - destruct (Hsh3 ltac:(lia)) as (-> & -> & _).
      etransitivity; [|exact Hle2]. apply scaled_shift; lia. }
  destruct (shr_m mrs3) as [|p|p]; simpl; try easy.
  now destruct (e3 <=? F32.emax - F32.prec).
Qed.

End Monotone.

Section Exponents.

Lemma round_aux_emin sx mx ex lx :
  0 <= mx -> emin_ok (binary_round_aux F32.prec F32.emax sx mx ex lx).
Proof.
  intros Hm. unfold binary_round_aux.
  pose proof (shr_fexp_shift mx ex lx Hm) as H1. cbv zeta in H1.
  destruct (shr_fexp F32.prec F32.emax mx ex lx) as [mrs1 e1].
  cbn [fst snd] in H1.
  assert (Hm1 : 0 <= shr_m mrs1).
  { destruct H1 as (_ & Hno & Hsh).
    destruct (Z_le_gt_dec (Z.max (Zdigits2 mx + ex - 24) (-149) - ex) 0) as [Hn|Hn].
    - destruct (Hno Hn) as (_ & -> & _). exact Hm.
    - destruct (Hsh ltac:(lia)) as (_ & -> & _).
      apply Z.div_pos; [exact Hm | apply Z.pow_pos_nonneg; lia]. }
  assert (Hm2 : 0 <= round_nearest_even (shr_m mrs1) (loc_of_shr_record mrs1)).
  { destruct (round_nearest_even_cases (shr_m mrs1) (loc_of_shr_record mrs1))
      as [-> | ->]; lia. }
  pose proof (shr_fexp_shift _ e1 loc_Exact Hm2) as H3. cbv zeta in H3.
  destruct (shr_fexp F32.prec F32.emax _ e1 loc_Exact) as [mrs3 e3].
  cbn [fst snd] in H3. destruct H3 as (He3 & _).
  destruct (shr_m mrs3); simpl; try easy.
  now destruct (e3 <=? F32.emax - F32.prec).
Qed.

Lemma binary_normalize_emin m e sz :
  emin_ok (binary_normalize F32.prec F32.emax m e sz).
Proof.
  destruct m; simpl; [easy|..]; unfold binary_round;
    destruct (shl_align _ _ _); now apply round_aux_emin.
Qed.

Lemma mul_emin x y : emin_ok (F32.mul x y).
Proof.
  destruct x as [sx|sx| |sx mx ex], y as [sy|sy| |sy my ey]; simpl; try easy.
  now apply round_aux_emin.
Qed.

Lemma add_emin x y : emin_ok x -> emin_ok y -> emin_ok (F32.add x y).
Proof.
  intros Hx Hy.
  destruct x as [sx|sx| |sx mx ex], y as [sy|sy| |sy my ey]; simpl; try easy;
    first [ now destruct sx, sy | apply binary_normalize_emin ].
Qed.

End Exponents.

Section Bounds.

Variables (mc : positive) (ec : Z).

(** [x <= c] for a normal bound [c], read on the scaled integers. *)
Lemma leb_at_most m e :
  SFleb (S754_finite false m e) (S754_finite false mc ec) = true ->
  digits m <= 24 -> 2 ^ 23 <= Zpos mc -> -400 <= e ->
  scaled (Zpos m) e <= scaled (Zpos mc) ec.
Proof.
  unfold SFleb. cbn [SFcompare]. intros Hle Hd Hmc He.
  pose proof (digits_gt m) as Hgt. pose proof (digits_pos m).
  assert (Hm24 : Zpos m < 2 ^ 24).
  { assert (2 ^ digits m <= 2 ^ 24) by (apply Z.pow_le_mono_r; lia). lia. }
  unfold scaled. destruct (Z.compare_spec e ec) as [Heq|Hlt|Hgt'].
  - rewrite Heq. apply Z.mul_le_mono_nonneg_r; [apply Z.pow_nonneg; lia|].
    change (PosDef.Pos.compare_cont Eq m mc) with (Pos.compare_cont Eq m mc) in Hle.
    rewrite Pos.compare_cont_spec in Hle. unfold Pos.switch_Eq in Hle.
    destruct (Pos.compare_spec m mc); [lia | lia | easy].
  - assert (P : 0 < 2 ^ (e + 400)) by (apply Z.pow_pos_nonneg; lia).
    assert (2 * 2 ^ (e + 400) <= 2 ^ (ec + 400)).
    { rewrite <- (Z.pow_succ_r 2) by lia. apply Z.pow_le_mono_r; lia. }
    change (2 ^ 24) with (2 * 2 ^ 23) in Hm24. nia.
  - easy.
Qed.

End Bounds.

Section Duty.

(** [400.0f * out <= 40000] when [out <= 100]. *)
Lemma mul_400_at_most m e :
  digits m <= 24 -> -149 <= e ->
  F32.leb (S754_finite false m e) F32.hundred = true ->
  at_most 10240000 (-8)
    (F32.mul (S754_finite false 13107200 (-15)) (S754_finite false m e)).
Proof.
  intros Hd He Hle.
  pose proof (leb_at_most 13107200 (-17) m e Hle Hd ltac:(lia) ltac:(lia)) as Hs.
  unfold F32.mul, SFmul. cbn [xorb].
  apply round_aux_at_most; [lia | lia | lia | lia |].
  unfold scaled in *. rewrite Pos2Z.inj_mul.
  replace (e + 400) with ((e + 385) + 15) in Hs by ring.
  rewrite (Z.pow_add_r 2 (e + 385) 15) in Hs by lia.
  replace (-17 + 400) with (368 + 15) in Hs by ring.
  rewrite (Z.pow_add_r 2 368 15) in Hs by lia.
  replace (-15 + e + 400) with (e + 385) by ring.
  replace (-8 + 400) with (368 + 24) by ring.
  rewrite (Z.pow_add_r 2 368 24) by lia.
  set (P := 2 ^ (e + 385)) in *. set (Q := 2 ^ 368) in *.
  change (2 ^ 15) with 32768 in Hs. change (2 ^ 24) with 16777216.
  assert (0 < P) by (apply Z.pow_pos_nonneg; lia).
  set (mP := Zpos m * P) in *.
  replace (Zpos 13107200 * Zpos m * P) with (13107200 * mP)
    by (unfold mP; ring).
  lia.
Qed.

(** [y / 100.0f <= 400] when [y <= 40000]. *)
Lemma div_hundred_at_most my ey :
  digits my <= 24 -> -149 <= ey <= -7 ->
  scaled (Zpos my) ey <= scaled 10240000 (-8) ->
  at_most 13107200 (-15) (F32.div (S754_finite false my ey) F32.hundred).
Proof.
  intros Hd He Hs.
  unfold F32.div, F32.hundred, SFdiv, SFdiv_core_binary. cbv zeta.
  change (Zdigits2 13107200) with 24.
  change (Zdigits2 (Zpos my)) with (digits my).
  replace (fexp F32.prec F32.emax (digits my + ey - (24 + -17)))
    with (Z.max (digits my + ey - 31) (-149))
    by (unfold fexp, emin, F32.prec, F32.emax; f_equal; lia).
  set (e' := Z.min (Z.max (digits my + ey - 31) (-149)) (ey - -17)).
  set (s := ey - -17 - e').
  set (m' := match s with Zpos _ => Z.shiftl (Zpos my) s | Z0 => Zpos my
             | Zneg _ => 0 end).
  pose proof (digits_pos my).
  assert (He' : -149 <= e' <= -14) by (subst e'; lia).
  assert (Hs0 : 0 <= s) by (subst s e'; lia).
  assert (Hm' : m' = Zpos my * 2 ^ s).
  { subst m'. destruct s as [|p|p] eqn:Es; [simpl; lia | | lia].
    now rewrite Z.shiftl_mul_pow2 by lia. }
  pose proof (Z_div_mod m' 13107200 ltac:(lia)) as Hdiv.
  destruct (Z.div_eucl m' 13107200) as [q r]. destruct Hdiv as (Hq & Hr).
  assert (P2s : 0 < 2 ^ s) by (apply Z.pow_pos_nonneg; lia).
  assert (Hq0 : 0 <= q) by nia.
  set (E := 2 ^ (e' + 400)). set (T := 2 ^ (- e')).
  assert (PE : 0 < E) by (apply Z.pow_pos_nonneg; lia).
  assert (PT : 0 < T) by (apply Z.pow_pos_nonneg; lia).
  set (V := 2 ^ 392).
  assert (PV : 0 < V) by (apply Z.pow_pos_nonneg; lia).
  assert (HW : E * T = V * 256).
  { unfold E, T, V. rewrite <- Z.pow_add_r by lia.
    replace (e' + 400 + - e') with (392 + 8) by ring.
    rewrite (Z.pow_add_r 2 392 8) by lia. reflexivity. }
  assert (HsE : 2 ^ s * E = 2 ^ (ey + 400) * 131072).
  { unfold E. rewrite <- Z.pow_add_r by lia.
    replace (s + (e' + 400)) with ((ey + 400) + 17) by (subst s; ring).
    rewrite (Z.pow_add_r 2 (ey + 400) 17) by lia. reflexivity. }
  assert (HmT : m' <= 13107200 * (400 * T)).
  { apply (Z.mul_le_mono_pos_r _ _ E); [exact PE|].
    unfold scaled in Hs. replace (-8 + 400) with 392 in Hs by ring.
    fold V in Hs. rewrite Hm'.
    replace (Zpos my * 2 ^ s * E) with (Zpos my * (2 ^ s * E)) by ring.
    rewrite HsE.
    replace (13107200 * (400 * T) * E) with (13107200 * 400 * (E * T)) by ring.
    rewrite HW. set (Y := Zpos my * 2 ^ (ey + 400)) in *.
    replace (Zpos my * (2 ^ (ey + 400) * 131072)) with (Y * 131072)
      by (unfold Y; ring).
    lia. }
  assert (Hscaled : forall k, k <= 400 * T ->
            scaled k e' <= scaled 13107200 (-15)).
  { intros k Hk. unfold scaled. fold E.
    replace (-15 + 400) with (377 + 8) by ring.
    replace (13107200 * 2 ^ (377 + 8)) with (400 * (V * 256)).
    - rewrite <- HW. nia.
    - unfold V. rewrite (Z.pow_add_r 2 377 8) by lia.
      replace 392 with (377 + 15) by ring.
      rewrite (Z.pow_add_r 2 377 15) by lia.
      change (2 ^ 15) with 32768. change (2 ^ 8) with 256. ring. }
  apply round_aux_at_most; [exact Hq0 | lia | lia | lia |].
  unfold new_location. change (Z.even 13107200) with true. cbv iota.
  unfold new_location_even.
  destruct (Z.eqb_spec r 0) as [Hr0|Hr0].
  - apply Hscaled. nia.
  - apply Hscaled. nia.
Qed.

(** A non-negative value that is at most 400 converts to at most 400. *)
Lemma to_u32_at_most x ccr :
  nonneg x -> emin_ok x -> at_most 13107200 (-15) x ->
  F32.to_u32 x = Some ccr -> 0 <= ccr <= 400.
Proof.
  intros Nx Ex Hx. unfold F32.to_u32.
  destruct x as [sx|sx| |sx m e]; simpl in *; try easy.
  - intros [= <-]. lia.
  - subst sx. simpl.
    destruct ((0 <=? Z.shiftl (Zpos m) e) && (Z.shiftl (Zpos m) e <? U32.modulus))
      eqn:Hin; [|easy].
    intros [= <-]. apply andb_true_iff in Hin. destruct Hin as (H0 & _).
    apply Z.leb_le in H0. split; [exact H0|].
    unfold scaled in Hx.
    replace (-15 + 400) with (385) in Hx by ring.
    assert (HV : 13107200 * 2 ^ 385 = 400 * 2 ^ 400).
    { replace 400 with (385 + 15) at 2 by ring.
      rewrite (Z.pow_add_r 2 385 15) by lia. change (2 ^ 15) with 32768. ring. }
    rewrite HV in Hx. set (W := 2 ^ 400) in *.
    assert (PW : 0 < W) by (apply Z.pow_pos_nonneg; lia).
    destruct (Z_lt_le_dec e 0) as [Hneg|Hpos].
    + rewrite <- (Z.opp_involutive e), Z.shiftl_opp_r.
      rewrite Z.shiftr_div_pow2 by lia.
      assert (PT : 0 < 2 ^ (- e)) by (apply Z.pow_pos_nonneg; lia).
      assert (PE : 0 < 2 ^ (e + 400)) by (apply Z.pow_pos_nonneg; lia).
      assert (HW : 2 ^ (e + 400) * 2 ^ (- e) = W).
      { unfold W. rewrite <- Z.pow_add_r by lia. f_equal. lia. }
      apply Z.div_le_upper_bound; [lia|].
      apply (Z.mul_le_mono_pos_r _ _ (2 ^ (e + 400))); [exact PE|].
      replace (2 ^ (- e) * 400 * 2 ^ (e + 400))
        with (400 * (2 ^ (e + 400) * 2 ^ (- e))) by ring.
      now rewrite HW.
    + rewrite Z.shiftl_mul_pow2 by lia.
      assert (HW : 2 ^ (e + 400) = 2 ^ e * W).
      { unfold W. now rewrite Z.pow_add_r by lia. }
      rewrite HW in Hx.
      apply (Z.mul_le_mono_pos_r _ _ W); [exact PW|].
      replace (Zpos m * 2 ^ e * W) with (Zpos m * (2 ^ e * W)) by ring.
      exact Hx.
Qed.

End Duty.

(** * The compare value never exceeds the period *)

Section DutyBound.

Lemma div_hundred_emin x : emin_ok (F32.div x F32.hundred).
Proof.
  destruct x as [sx|sx| |sx mx ex]; try easy.
  unfold F32.div, F32.hundred, SFdiv, SFdiv_core_binary. cbv zeta.
  set (m' := match _ with Zpos _ => Z.shiftl (Zpos mx) _ | Z0 => Zpos mx
             | Zneg _ => 0 end).
  assert (Hm' : 0 <= m').
  { subst m'. destruct (_ - _ - _); try lia. apply Z.shiftl_nonneg. lia. }
  pose proof (Z_div_mod m' 13107200 ltac:(lia)) as Hdiv.
  destruct (Z.div_eucl m' 13107200) as [q r]. destruct Hdiv as (Hq & Hr).
  apply round_aux_emin. nia.
Qed.

(** The compare value computed from an output in [0, 100] is at most 400. *)
Lemma pwm_compare_at_most out ccr :
  below 7 out -> nonneg out -> emin_ok out ->
  F32.leb out F32.hundred = true ->
  F32.to_u32 (pwm_compare 399 out) = Some ccr -> 0 <= ccr <= 400.
Proof.
  intros Hb Hn He Hle. unfold pwm_compare.
  change (F32.of_u32 (U32.add 399 1)) with (S754_finite false 13107200 (-15)).
  set (c400 := S754_finite false 13107200 (-15)).
  assert (Hy : below 17 (F32.mul c400 out)).
  { apply (mul_below 9 7); [unfold c400, below, digits; simpl; lia | easy | lia]. }
  assert (Hyn : nonneg (F32.mul c400 out)).
  { apply mul_nonneg;
      [ unfold c400, below, digits; simpl; lia
      | apply (below_mono 7); [lia | easy]
      | reflexivity
      | easy ]. }
  assert (Hya : at_most 10240000 (-8) (F32.mul c400 out)).
  { destruct out as [so|so| |so m e]; try easy.
    simpl in Hb, Hn, He. subst so. now apply mul_400_at_most. }
  pose proof (mul_emin c400 out) as Hye.
  destruct (div_hundred_below 17 _ Hy Hyn ltac:(lia)) as (Hz & Hzn).
  pose proof (div_hundred_emin (F32.mul c400 out)) as Hze.
  assert (Hza : at_most 13107200 (-15) (F32.div (F32.mul c400 out) F32.hundred)).
  { destruct (F32.mul c400 out) as [sy|sy| |sy my ey]; try easy.
    simpl in Hy, Hyn, Hye, Hya. subst sy.
    apply div_hundred_at_most; [lia | lia | exact Hya]. }
  now apply to_u32_at_most.
Qed.

Lemma f_output_emin target rpm esum : emin_ok (f_output target rpm esum).
Proof. unfold f_output. apply add_emin; apply mul_emin. Qed.

Lemma limited_output_emin target rpm esum :
  emin_ok (limited_output target rpm esum).
Proof.
  rewrite limited_output_cases.
  destruct (F32.ltb F32.hundred _); [easy|].
  destruct (F32.ltb _ F32.zero); [easy|]. apply f_output_emin.
Qed.

End DutyBound.

Section DutyState.
Context `{MedianModule}.

Lemma cycle_ccr_at_most tick s rpm s1 s2 :
  state_ok s -> fan_get_filtered_rpm tick s = Some (rpm, s1) ->
  fan_update_pi_controller tick s = Some (tt, s2) ->
  0 <= g_fan_tim9_ccr1 s2 <= 400.
Proof.
  intros Hok Hrun Hupd.
  destruct (state_ok_cycle tick s rpm s1 Hok Hrun)
    as (ccr & Hccr & _ & Hupd' & _ & H100 & _).
  rewrite Hupd' in Hupd. injection Hupd as <-.
  destruct Hok as (Hp & Ht & He). rewrite Hp in Hccr.
  pose proof (rpm_range _ _ _ _ Hrun) as Hr.
  destruct (pi_limit_spec _ _ _ Ht Hr He) as (Hb & Hn & _).
  cbn [g_fan_tim9_ccr1 set_tim9_ccr1].
  apply (pwm_compare_at_most
           (limited_output (g_u32_target_rpm s) rpm (f_esum s))); try easy.
  apply limited_output_emin.
Qed.

(** X8: in every state reached from initialisation the PWM period register
    holds 399 and the compare register holds a value between 0 and
    period + 1 = 400: the duty cycle written by the controller never
    exceeds 100 %, rounding of the three binary32 operations included. *)
Theorem duty_never_exceeds_period s :
  reachable s ->
  g_fan_tim9_period s = 399
  /\ 0 <= g_fan_tim9_ccr1 s <= g_fan_tim9_period s + 1.
Proof.
  intros Hreach. pose proof (reachable_ok s Hreach) as (Hp & _).
  split; [exact Hp|]. rewrite Hp.
  induction Hreach as [m | s t Hr IH Ht | s pin counter tick Hr IH _ _
                      | s tick r s' Hr IH _ Hrun | s tick s' Hr IH _ Hrun].
  - compute. split; discriminate.
  - apply IH. now apply reachable_ok.
  - assert (E : g_fan_tim9_ccr1 (HAL_GPIO_EXTI_Callback pin counter tick s)
                = g_fan_tim9_ccr1 s).
    { unfold HAL_GPIO_EXTI_Callback. now destruct (pin =? FAN_TACHO_OUTPUT). }
    rewrite E. apply IH. now apply reachable_ok.
  - rewrite (rpm_frame _ _ _ _ Hrun). cbn [g_fan_tim9_ccr1 set_median].
    apply IH. now apply reachable_ok.
  - destruct (pi_reads_rpm _ _ _ _ Hrun) as (rpm & s1 & Hrpm).
    apply (cycle_ccr_at_most tick s rpm s1 s'); try easy.
    now apply reachable_ok.
Qed.

End DutyState.

(** * The integral of the controller *)

Section NonZero.

Lemma shr_fexp_pos m e l :
  0 < m -> -149 <= e ->
  0 < shr_m (fst (shr_fexp F32.prec F32.emax m e l))
  /\ -149 <= snd (shr_fexp F32.prec F32.emax m e l).
Proof.
  intros Hm He.
  pose proof (shr_fexp_shift m e l ltac:(lia)) as H. cbv zeta in H.
  destruct H as (Hs & Hno & Hsh). split; [|exact Hs].
  destruct (Z_le_gt_dec (Z.max (Zdigits2 m + e - 24) (-149) - e) 0) as [Hn|Hn].
  - destruct (Hno Hn) as (_ & -> & _). exact Hm.
  - destruct (Hsh ltac:(lia)) as (_ & -> & _).
    assert (En : Z.max (Zdigits2 m + e - 24) (-149) - e = Zdigits2 m - 24) by lia.
    rewrite En. rewrite En in Hn.
    destruct m as [|p|p]; try lia. simpl in *. fold (digits p) in *.
    pose proof (digits_le p) as Hle.
    apply Z.div_str_pos. split; [apply Z.pow_pos_nonneg; lia|].
    transitivity (2 ^ (digits p - 1)); [apply Z.pow_le_mono_r; lia | exact Hle].
Qed.

Lemma round_aux_nonzero sx mx ex lx s :
  0 < mx -> -149 <= ex ->
  binary_round_aux F32.prec F32.emax sx mx ex lx <> S754_zero s.
Proof.
  intros Hm He. unfold binary_round_aux.
  pose proof (shr_fexp_pos mx ex lx Hm He) as H1.
  destruct (shr_fexp F32.prec F32.emax mx ex lx) as [mrs1 e1].
  cbn [fst snd] in H1. destruct H1 as (Hm1 & He1).
  assert (Hm2 : 0 < round_nearest_even (shr_m mrs1) (loc_of_shr_record mrs1)).
  { destruct (round_nearest_even_cases (shr_m mrs1) (loc_of_shr_record mrs1))
      as [-> | ->]; lia. }
  pose proof (shr_fexp_pos _ e1 loc_Exact Hm2 He1) as H3.
  destruct (shr_fexp F32.prec F32.emax _ e1 loc_Exact) as [mrs3 e3].
  cbn [fst snd] in H3. destruct H3 as (Hm3 & _).
  destruct (shr_m mrs3); try lia.
  cbv zeta. now destruct (e3 <=? F32.emax - F32.prec).
Qed.

Lemma shl_align_emin mx ex ex' :
  -149 <= ex -> -149 <= ex' -> -149 <= snd (shl_align mx ex ex').
Proof. unfold shl_align. now destruct (ex' - ex). Qed.

Lemma binary_normalize_not_neg_zero m e :
  -149 <= e -> binary_normalize F32.prec F32.emax m e false <> S754_zero true.
Proof.
  intros He. destruct m as [|p|p]; simpl; [easy|..]; unfold binary_round;
    pose proof (shl_align_emin p e
                  (fexp F32.prec F32.emax (Zpos (digits2_pos p) + e)) He) as Hs;
    assert (Hf : -149 <= fexp F32.prec F32.emax (Zpos (digits2_pos p) + e))
      by (unfold fexp, emin, F32.prec, F32.emax; lia);
    specialize (Hs Hf);
    destruct (shl_align _ _ _) as [mz ez]; cbn [snd] in Hs;
    apply round_aux_nonzero; lia.
Qed.

Lemma add_not_neg_zero x y :
  emin_ok x -> emin_ok y -> not_neg_zero x -> not_neg_zero (F32.add x y).
Proof.
  unfold not_neg_zero. intros Hx Hy Hn.
  destruct x as [sx|sx| |sx mx ex], y as [sy|sy| |sy my ey]; simpl; try easy.
  - destruct sx, sy; simpl; easy.
  - destruct sx, sy; simpl; easy.
  - simpl in Hx, Hy. apply binary_normalize_not_neg_zero. lia.
Qed.

End NonZero.

Section Integral.
Context `{MedianModule}.

Lemma sub_self B x : below B x -> F32.sub x x = F32.zero.
Proof.
  destruct x as [s|s| |s m e]; simpl; try easy.
  - now destruct s.
  - intros _. rewrite Z.min_id.
    assert (Es : shl_align m e e = (m, e)).
    { unfold shl_align. now rewrite Z.sub_diag. }
    rewrite Es. cbn [fst]. now rewrite Z.sub_diag.
Qed.

Lemma f_error_zero t : U32.in_range t -> f_error t t = F32.zero.
Proof.
  intros Ht. unfold f_error.
  destruct (of_u32_below t Ht) as (Hb & _). exact (sub_self 33 _ Hb).
Qed.

Lemma add_zero_r x : not_neg_zero x -> F32.add x F32.zero = x.
Proof.
  unfold not_neg_zero. destruct x as [s|s| |s m e]; simpl; try easy.
  now destruct s.
Qed.

Lemma next_esum_emin target rpm esum :
  emin_ok esum -> emin_ok (next_esum target rpm esum).
Proof.
  intros He. unfold next_esum, pi_limit.
  destruct (F32.ltb F32.hundred _); [easy|].
  destruct (F32.ltb _ F32.zero); [easy|]. cbn [snd].
  apply add_emin; [easy | apply mul_emin].
Qed.

Lemma next_esum_not_neg_zero target rpm esum :
  emin_ok esum -> not_neg_zero esum ->
  not_neg_zero (next_esum target rpm esum).
Proof.
  intros He Hn. unfold next_esum, pi_limit.
  destruct (F32.ltb F32.hundred _); [easy|].
  destruct (F32.ltb _ F32.zero); [easy|]. cbn [snd].
  apply add_not_neg_zero; [easy | apply mul_emin | easy].
Qed.

Lemma cycle_esum tick s s' :
  state_ok s -> fan_update_pi_controller tick s = Some (tt, s') ->
  exists rpm s1, fan_get_filtered_rpm tick s = Some (rpm, s1)
    /\ f_esum s' = next_esum (g_u32_target_rpm s) rpm (f_esum s).
Proof.
  intros Hok Hupd.
  destruct (pi_reads_rpm _ _ _ _ Hupd) as (rpm & s1 & Hrpm).
  exists rpm, s1. split; [exact Hrpm|].
  destruct (state_ok_cycle tick s rpm s1 Hok Hrpm) as (ccr & _ & _ & Hupd' & _).
  rewrite Hupd' in Hupd. now injection Hupd as <-.
Qed.

Lemma reachable_esum s :
  reachable s -> emin_ok (f_esum s) /\ not_neg_zero (f_esum s).
Proof.
  induction 1 as [m | s t Hr IH Ht | s pin counter tick Hr IH _ _
                 | s tick r s' Hr IH _ Hrun | s tick s' Hr IH _ Hrun].
  - now split.
  - exact IH.
  - unfold HAL_GPIO_EXTI_Callback. now destruct (pin =? FAN_TACHO_OUTPUT).
  - destruct (rpm_keeps _ _ _ _ Hrun) as (_ & _ & ->). exact IH.
  - destruct (cycle_esum tick s s' (reachable_ok s Hr) Hrun)
      as (rpm & s1 & _ & ->).
    destruct IH as (He & Hn). split.
    + now apply next_esum_emin.
    + now apply next_esum_not_neg_zero.
Qed.

(** X9: in every state reached from initialisation the integral of the
    controller is neither a NaN nor a negative zero. *)
Theorem integral_stays_a_number s :
  reachable s -> f_esum s <> S754_nan /\ f_esum s <> S754_zero true.
Proof.
  intros Hr. split.
  - destruct (reachable_ok s Hr) as (_ & _ & Hs). intros E. now rewrite E in Hs.
  - now apply reachable_esum.
Qed.

(** X10: a controller cycle in which the filtered RPM equals the target has
    an error of exactly +0 and leaves the integral bit for bit as it was,
    whether or not the output is limited. *)
Theorem zero_error_holds_integral tick s s1 :
  reachable s ->
  fan_get_filtered_rpm tick s = Some (g_u32_target_rpm s, s1) ->
  f_error (g_u32_target_rpm s) (g_u32_target_rpm s) = F32.zero
  /\ exists s2, fan_update_pi_controller tick s = Some (tt, s2)
       /\ f_esum s2 = f_esum s.
Proof.
  intros Hr Hrun. pose proof (reachable_ok s Hr) as Hok.
  assert (Herr : f_error (g_u32_target_rpm s) (g_u32_target_rpm s) = F32.zero).
  { apply f_error_zero. apply Hok. }
  split; [exact Herr|].
  destruct (state_ok_cycle tick s _ s1 Hok Hrun) as (ccr & _ & _ & Hupd & _).
  eexists. split; [exact Hupd|].
  cbn [f_esum set_tim9_ccr1 set_esum]. rewrite Herr. unfold pi_limit.
  destruct (F32.ltb F32.hundred _); [easy|].
  destruct (F32.ltb _ F32.zero); [easy|]. cbn [snd].
  change (F32.mul F32.zero g_f_ta) with F32.zero.
  apply add_zero_r. now apply reachable_esum.
Qed.

End Integral.

(** * Properties of the potentiometer module *)

Section PotisProperties.

Lemma rem_even i : 0 <= i -> (Z.rem i 2 =? 0) = Z.even i.
Proof. intros Hi. rewrite Z.rem_mod_nonneg by lia. symmetry. apply Zeven_mod. Qed.

Lemma loop_accumulate rest :
  forall pre a b,
    foldl (filter_step (pre ++ rest)) (Some [a; b])
      (seqZ (Z.of_nat (length pre)) (Z.of_nat (length rest)))
    = Some (let r := accumulate (Z.even (Z.of_nat (length pre))) rest a b in
            [fst r; snd r]).
Proof.
  induction rest as [|x rest IH]; intros pre a b; [reflexivity|].
  cbn [length]. rewrite Nat2Z.inj_succ, seqZ_cons by lia.
  rewrite Z.pred_succ. cbn [foldl accumulate].
  assert (Hload : load (pre ++ x :: rest) (Z.of_nat (length pre)) = Some x).
  { unfold load. destruct (Z.ltb_spec (Z.of_nat (length pre)) 0); [lia|].
    rewrite Nat2Z.id. apply list_lookup_middle. reflexivity. }
  assert (Hstep : filter_step (pre ++ x :: rest) (Some [a; b])
                    (Z.of_nat (length pre))
                  = Some (if Z.even (Z.of_nat (length pre))
                          then [U32.add a x; b] else [a; U32.add b x])).
  { unfold filter_step. cbn [mbind option_bind]. rewrite Hload.
    cbn [mbind option_bind]. rewrite rem_even by lia.
    now destruct (Z.even _). }
  rewrite Hstep.
  replace (pre ++ x :: rest) with ((pre ++ [x]) ++ rest)
    by (now rewrite <- app_assoc).
  replace (Z.succ (Z.of_nat (length pre)))
    with (Z.of_nat (length (pre ++ [x])))
    by (rewrite length_app; cbn [length]; lia).
  assert (Hpar : Z.even (Z.of_nat (length (pre ++ [x])))
                 = negb (Z.even (Z.of_nat (length pre)))).
  { rewrite length_app. cbn [length]. rewrite Nat.add_1_r, Nat2Z.inj_succ.
    rewrite Z.even_succ. now rewrite <- Z.negb_even. }
  destruct (Z.even (Z.of_nat (length pre))); rewrite IH, Hpar; reflexivity.
Qed.

Lemma every_second_cons x l :
  every_second (x :: l) = x :: every_second (tail l).
Proof. now destruct l. Qed.

Lemma wrap_add_l a x : U32.add (U32.wrap a) x = U32.wrap (a + x).
Proof. unfold U32.add, U32.wrap. now rewrite Zplus_mod_idemp_l. Qed.

Lemma accumulate_total l :
  forall even a b,
    accumulate even l (U32.wrap a) (U32.wrap b)
    = if even
      then (U32.wrap (a + total (every_second l)),
            U32.wrap (b + total (every_second (tail l))))
      else (U32.wrap (a + total (every_second (tail l))),
            U32.wrap (b + total (every_second l))).
Proof.
  induction l as [|x l IH]; intros even a b.
  - cbn. rewrite !Z.add_0_r. now destruct even.
  - cbn [accumulate tail]. rewrite every_second_cons. cbn [total foldr].
    fold (total (every_second (tail l))).
    destruct even; rewrite wrap_add_l, IH; now rewrite Z.add_assoc.
Qed.

Lemma length_every_second n :
  forall l, length l = (2 * n)%nat ->
    length (every_second l) = n /\ length (every_second (tail l)) = n.
Proof.
  induction n as [|n IH]; intros l Hl.
  - now destruct l.
  - destruct l as [|x [|y l]]; cbn [length] in Hl; try lia.
    destruct (IH l ltac:(lia)) as (H1 & H2).
    cbn [tail]. rewrite (every_second_cons y l).
    cbn [every_second length]. now rewrite H1, H2.
Qed.

Lemma total_bounds lo hi l :
  Forall (fun x => lo <= x <= hi) l ->
  Z.of_nat (length l) * lo <= total l <= Z.of_nat (length l) * hi.
Proof.
  induction 1 as [|x l Hx _ IH]; [cbn; lia|].
  cbn [total foldr length]. fold (total l). lia.
Qed.

Lemma channel_2 data : channel POTI_2 data = every_second (tail data).
Proof. unfold channel. now destruct data. Qed.

Lemma channel_length poti data :
  Z.of_nat (length data) = NON_FILTERED_DATA_ARRAY_LENGTH ->
  poti = POTI_1 \/ poti = POTI_2 ->
  length (channel poti data) = 100%nat.
Proof.
  unfold NON_FILTERED_DATA_ARRAY_LENGTH. intros Hl Hp.
  destruct (length_every_second 100 data ltac:(lia)) as (H1 & H2).
  destruct Hp as [-> | ->]; [exact H1 | now rewrite channel_2].
Qed.

(** What the filter leaves in the module, in closed form. *)
Lemma filter_data_spec p :
  arrays_ok p ->
  potis_dma_filter_data p
  = Some (set_filtered_data
            [average POTI_1 (u32_potis_data p);
             average POTI_2 (u32_potis_data p)] p).
Proof.
  intros (Hraw & Hfil). unfold potis_dma_filter_data.
  destruct (g_u32_potis_filtered_data p) as [|f0 [|f1 [|f2 l]]];
    cbn [length] in Hfil; unfold FILTERED_DATA_ARRAY_LENGTH in Hfil; try lia.
  change (store [f0; f1] POTI_1 0) with (Some [0; f1]).
  cbn [mbind option_bind].
  change (store [0; f1] POTI_2 0) with (Some [0; 0]).
  cbn [mbind option_bind].
  rewrite <- Hraw.
  pose proof (loop_accumulate (u32_potis_data p) [] 0 0) as Hloop.
  cbn [app length] in Hloop. change (Z.of_nat 0) with 0 in Hloop.
  pose proof (accumulate_total (u32_potis_data p) true 0 0) as Hacc.
  change (U32.wrap 0) with 0 in Hacc. rewrite !Z.add_0_l in Hacc.
  change (Z.even 0) with true in Hloop. rewrite Hacc in Hloop.
  cbn [fst snd] in Hloop. rewrite Hloop, Hraw.
  unfold average. rewrite channel_2. reflexivity.
Qed.

Lemma get_val_spec poti_num p :
  arrays_ok p -> 0 <= poti_num ->
  potis_dma_get_val poti_num p
  = if 2 <=? poti_num then Some (0, p)
    else Some (average poti_num (u32_potis_data p),
               set_filtered_data
                 [average POTI_1 (u32_potis_data p);
                  average POTI_2 (u32_potis_data p)] p).
Proof.
  intros Hok Hp. unfold potis_dma_get_val.
  destruct (Z.leb_spec 2 poti_num) as [Hge|Hlt]; [reflexivity|].
  rewrite (filter_data_spec p Hok). cbn [mbind option_bind].
  assert (Hc : poti_num = 0 \/ poti_num = 1) by lia.
  now destruct Hc as [-> | ->].
Qed.

(** X11: with the arrays at their declared sizes, potis_dma_get_val
    returns 0 and leaves the module untouched for an index of 2 or more;
    for POTI_1 and POTI_2 it returns the sum of that potentiometer's 100
    conversions (even or odd buffer positions), reduced modulo 2^32 and
    divided by 100, and it refreshes the stored averages of both
    potentiometers. *)
Theorem get_val_returns_channel_average poti_num p :
  arrays_ok p -> 0 <= poti_num ->
  potis_dma_get_val poti_num p
  = if 2 <=? poti_num then Some (0, p)
    else Some (U32.wrap (total (channel poti_num (u32_potis_data p))) / 100,
               set_filtered_data
                 [U32.wrap (total (channel POTI_1 (u32_potis_data p))) / 100;
                  U32.wrap (total (channel POTI_2 (u32_potis_data p))) / 100]
                 p).
Proof. exact (get_val_spec poti_num p). Qed.

(** X12: the filter starts from zero on every run: its result does not
    depend on the averages stored before, it leaves the raw buffer as it
    is, and running it again on an unchanged buffer changes nothing. *)
Theorem filter_data_idempotent p p' :
  arrays_ok p -> potis_dma_filter_data p = Some p' ->
  arrays_ok p'
  /\ u32_potis_data p' = u32_potis_data p
  /\ potis_dma_filter_data p' = Some p'
  /\ (forall f, Z.of_nat (length f) = FILTERED_DATA_ARRAY_LENGTH ->
      potis_dma_filter_data (set_filtered_data f p) = Some p').
Proof.
  intros Hok Hrun. rewrite (filter_data_spec p Hok) in Hrun.
  injection Hrun as <-.
  assert (Hset : forall f, Z.of_nat (length f) = FILTERED_DATA_ARRAY_LENGTH ->
                   arrays_ok (set_filtered_data f p)).
  { intros f Hf. destruct Hok as (Hraw & _). now split. }
  set (f' := [average POTI_1 (u32_potis_data p);
              average POTI_2 (u32_potis_data p)]).
  assert (Hf' : Z.of_nat (length f') = FILTERED_DATA_ARRAY_LENGTH)
    by reflexivity.
  split; [now apply Hset|]. split; [reflexivity|]. split.
  - now rewrite (filter_data_spec _ (Hset f' Hf')).
  - intros f Hf. now rewrite (filter_data_spec _ (Hset f Hf)).
Qed.

Lemma average_bounds poti data lo hi :
  Z.of_nat (length data) = NON_FILTERED_DATA_ARRAY_LENGTH ->
  poti = POTI_1 \/ poti = POTI_2 ->
  Forall (fun x => lo <= x <= hi) (channel poti data) ->
  0 <= lo -> hi <= 42949672 ->
  average poti data = total (channel poti data) / 100
  /\ lo <= average poti data <= hi.
Proof.
  intros Hl Hp Hall Hlo Hhi. unfold average.
  pose proof (total_bounds lo hi _ Hall) as Hb.
  rewrite (channel_length poti data Hl Hp) in Hb.
  change (Z.of_nat 100) with 100 in Hb.
  rewrite wrap_small by (unfold U32.in_range, U32.modulus; lia).
  split; [reflexivity|]. split.
  - apply Z.div_le_lower_bound; lia.
  - apply Z.div_le_upper_bound; lia.
Qed.

(** X13: when all conversions of a potentiometer lie between lo and hi,
    with 0 <= lo and hi <= 42949672 (so that 100 of them do not overflow 32
    bits), the value returned for it is their sum divided by 100 and lies
    between lo and hi. *)
Theorem average_within_samples poti p lo hi :
  arrays_ok p -> poti = POTI_1 \/ poti = POTI_2 ->
  Forall (fun x => lo <= x <= hi) (channel poti (u32_potis_data p)) ->
  0 <= lo -> hi <= 42949672 ->
  exists v p', potis_dma_get_val poti p = Some (v, p')
    /\ v = total (channel poti (u32_potis_data p)) / 100
    /\ lo <= v <= hi.
Proof.
  intros Hok Hp Hall Hlo Hhi.
  destruct (average_bounds poti _ lo hi (proj1 Hok) Hp Hall Hlo Hhi)
    as (Heq & Hb).
  rewrite (get_val_spec poti p Hok) by (destruct Hp as [-> | ->]; easy).
  assert (Hlt : (2 <=? poti) = false) by (destruct Hp as [-> | ->]; easy).
  rewrite Hlt. eexists _, _. split; [reflexivity|]. now split.
Qed.

End PotisProperties.


(** * Properties of the fan application *)

Section ApplicationProperties.
Context `{MedianModule}.

Lemma convert_exact adc :
  0 <= adc <= 858993 ->
  MAIN_CONVERT_ADC_TO_RPM adc FAN_MAX_RPM ADC_12_BIT_RESOLUTION
  = Some (adc * 5000 / 4095).
Proof.
  intros Ha. unfold MAIN_CONVERT_ADC_TO_RPM, U32.div, U32.mul.
  change (ADC_12_BIT_RESOLUTION =? 0) with false. cbv iota.
  rewrite wrap_small by (unfold U32.in_range, U32.modulus, FAN_MAX_RPM; lia).
  reflexivity.
Qed.

Lemma convert_range adc :
  exists t, MAIN_CONVERT_ADC_TO_RPM adc FAN_MAX_RPM ADC_12_BIT_RESOLUTION
            = Some t /\ U32.in_range t.
Proof.
  unfold MAIN_CONVERT_ADC_TO_RPM, U32.div.
  change (ADC_12_BIT_RESOLUTION =? 0) with false. cbv iota.
  eexists. split; [reflexivity|].
  pose proof (wrap_range (adc * FAN_MAX_RPM)) as Hw. fold (U32.mul adc FAN_MAX_RPM) in Hw.
  unfold U32.in_range, U32.modulus, ADC_12_BIT_RESOLUTION in *. split.
  - apply Z.div_pos; lia.
  - apply Z.div_lt_upper_bound; lia.
Qed.

(** X14: on 12-bit ADC values the conversion to a target RPM is defined,
    does not wrap, is monotone and stays within 0 .. FAN_MAX_RPM; it gives
    FAN_MAX_RPM only at full scale (4095) and 0 only at 0. *)
Theorem adc_to_rpm_scale a b :
  0 <= a <= b -> b <= ADC_12_BIT_RESOLUTION ->
  exists ra rb,
    MAIN_CONVERT_ADC_TO_RPM a FAN_MAX_RPM ADC_12_BIT_RESOLUTION = Some ra
    /\ MAIN_CONVERT_ADC_TO_RPM b FAN_MAX_RPM ADC_12_BIT_RESOLUTION = Some rb
    /\ 0 <= ra <= rb /\ rb <= FAN_MAX_RPM
    /\ (rb = FAN_MAX_RPM <-> b = ADC_12_BIT_RESOLUTION)
    /\ (ra = 0 <-> a = 0).
Proof.
  unfold ADC_12_BIT_RESOLUTION, FAN_MAX_RPM. intros Hab Hb.
  exists (a * 5000 / 4095), (b * 5000 / 4095).
  rewrite !convert_exact by lia. repeat split.
  - apply Z.div_pos; lia.
  - apply Z.div_le_mono; lia.
  - apply Z.div_le_upper_bound; lia.
  - intros E. destruct (Z.eq_dec b 4095) as [|Hne]; [easy|].
    assert (b * 5000 / 4095 < 5000) by (apply Z.div_lt_upper_bound; lia). lia.
  - intros ->. reflexivity.
  - intros E. destruct (Z.eq_dec a 0) as [|Hne]; [easy|].
    assert (1 <= a * 5000 / 4095) by (apply Z.div_le_lower_bound; lia). lia.
  - intros ->. reflexivity.
Qed.


Lemma run_edges_frame es : forall s,
  g_u32_target_rpm (run_edges es s) = g_u32_target_rpm s
  /\ f_esum (run_edges es s) = f_esum s
  /\ g_fan_tim9_period (run_edges es s) = g_fan_tim9_period s
  /\ g_median (run_edges es s) = g_median s.
Proof.
  induction es as [|e es IH]; intros s; [easy|].
  change (run_edges (e :: es) s)
    with (run_edges es (HAL_GPIO_EXTI_Callback (edge_pin e) (edge_counter e)
                          (edge_tick e) s)).
  destruct (IH (HAL_GPIO_EXTI_Callback (edge_pin e) (edge_counter e)
                  (edge_tick e) s)) as (-> & -> & -> & ->).
  unfold HAL_GPIO_EXTI_Callback.
  now destruct (edge_pin e =? FAN_TACHO_OUTPUT).
Qed.

Lemma run_edges_capture es : forall s s',
  same_capture s s' -> same_capture (run_edges es s) (run_edges es s').
Proof.
  induction es as [|e es IH]; intros s s' Hs; [exact Hs|].
  change (run_edges (e :: es) s)
    with (run_edges es (HAL_GPIO_EXTI_Callback (edge_pin e) (edge_counter e)
                          (edge_tick e) s)).
  change (run_edges (e :: es) s')
    with (run_edges es (HAL_GPIO_EXTI_Callback (edge_pin e) (edge_counter e)
                          (edge_tick e) s')).
  apply IH.
  destruct Hs as (E1 & E2 & E3). unfold same_capture, HAL_GPIO_EXTI_Callback.
  destruct (edge_pin e =? FAN_TACHO_OUTPUT); simpl; [|easy].
  now rewrite E1.
Qed.

Lemma same_capture_fresh tick s s' :
  same_capture s s' ->
  stale tick s' = stale tick s /\ g_u32_time_diff s' = g_u32_time_diff s.
Proof. intros (_ & E2 & E3). unfold stale. now rewrite E2, E3. Qed.

Lemma run_edges_app es es' s :
  run_edges (es ++ es') s = run_edges es' (run_edges es s).
Proof. unfold run_edges. apply foldl_app. Qed.

Lemma main_loop_no_edges tick_pi tick_lcd st :
  main_loop_with_edges tick_pi tick_lcd [] [] st
  = main_loop tick_pi tick_lcd st.
Proof. reflexivity. Qed.

(** X16: in a pass of the main loop in which the tachometer signal is
    fresh at the controller cycle and at the read for the display, the
    median filter receives two samples: the one converted from the period
    stored when the controller cycle runs, and the one converted from the
    period stored when the display read runs.  The number shown as "CUR"
    is the filter's answer to the second insertion, not the value the
    controller used.  Tachometer callbacks may run before the controller
    cycle and between the cycle and the display read; when none runs in
    between, the same sample enters twice, and without any callback the
    pass is [main_loop]. *)
Theorem main_loop_reads_filter_twice
    tick_pi tick_lcd before between s p rpm1 rpm2 :
  reachable s -> arrays_ok p ->
  stale tick_pi (run_edges before s) = false ->
  g_u32_time_diff (run_edges before s) <> 0 ->
  u32_rpm (g_u32_time_diff (run_edges before s)) = Some rpm1 ->
  stale tick_lcd (run_edges (before ++ between) s) = false ->
  g_u32_time_diff (run_edges (before ++ between) s) <> 0 ->
  u32_rpm (g_u32_time_diff (run_edges (before ++ between) s)) = Some rpm2 ->
  let m1 := median_get_median rpm1 (g_median s) in
  let m2 := median_get_median rpm2 (snd m1) in
  (exists tar s' p',
     main_loop_with_edges tick_pi tick_lcd before between (s, p)
     = Some ((tar, U32.wrap (fst m2)), (s', p'))
     /\ g_median s' = snd m2)
  /\ (between = [] -> rpm2 = rpm1)
  /\ main_loop_with_edges tick_pi tick_lcd [] [] (s, p)
     = main_loop tick_pi tick_lcd (s, p).
Proof.
  intros Hr Hok Hs1 Hd1 Hrpm1 Hs2 Hd2 Hrpm2 m1 m2.
  split; [|split; [|reflexivity]].
  2:{ intros ->. rewrite app_nil_r in Hrpm2. congruence. }
  unfold main_loop_with_edges. cbn [fst snd].
  rewrite (get_val_spec POTI_1 p Hok) by easy.
  change (2 <=? POTI_1) with false. cbv iota. cbn [mbind option_bind].
  destruct (convert_range (average POTI_1 (u32_potis_data p)))
    as (t & -> & Ht). cbn [mbind option_bind].
  set (s0 := fan_change_target_rpm t s).
  assert (Hcap0 : same_capture s s0) by (now split).
  set (s1 := run_edges before s0).
  pose proof (run_edges_capture before s s0 Hcap0) as Hcap1. fold s1 in Hcap1.
  destruct (same_capture_fresh tick_pi _ _ Hcap1) as (Est1 & Ed1).
  destruct (run_edges_frame before s0) as (Ft1 & Fe1 & Fp1 & Fm1).
  fold s1 in Ft1, Fe1, Fp1, Fm1.
  assert (Hok1 : state_ok s1).
  { destruct (reachable_ok s Hr) as (Hp & _ & He).
    unfold state_ok. rewrite Ft1, Fe1, Fp1. split; [exact Hp|].
    split; [exact Ht | exact He]. }
  assert (Hrun1 : fan_get_filtered_rpm tick_pi s1
                  = Some (U32.wrap (fst m1), set_median (snd m1) s1)).
  { rewrite rpm_fresh by (rewrite ?Est1, ?Ed1; easy).
    rewrite Ed1, Hrpm1. unfold call_median. now rewrite Fm1. }
  destruct (state_ok_cycle tick_pi s1 _ _ Hok1 Hrun1)
    as (ccr & _ & _ & Hupd & _).
  rewrite Hupd. cbn [mbind option_bind].
  match goal with |- context [run_edges between ?x] => set (s2 := x) end.
  assert (Hcap2 : same_capture (run_edges before s) s2).
  { destruct Hcap1 as (E1 & E2 & E3). now split. }
  set (s3 := run_edges between s2).
  pose proof (run_edges_capture between _ _ Hcap2) as Hcap3.
  rewrite <- run_edges_app in Hcap3. fold s3 in Hcap3.
  destruct (same_capture_fresh tick_lcd _ _ Hcap3) as (Est3 & Ed3).
  destruct (run_edges_frame between s2) as (_ & _ & _ & Fm3). fold s3 in Fm3.
  assert (Hrun3 : fan_get_filtered_rpm tick_lcd s3
                  = Some (U32.wrap (fst m2), set_median (snd m2) s3)).
  { rewrite rpm_fresh by (rewrite ?Est3, ?Ed3; easy).
    rewrite Ed3, Hrpm2. unfold call_median. now rewrite Fm3. }
  rewrite Hrun3. cbn [mbind option_bind].
  now eexists _, _, _.
Qed.

End ApplicationProperties.

(** * Examples *)

Lemma in_range_dec z : 0 <= z -> z < 2 ^ 32 -> U32.in_range z.
Proof. unfold U32.in_range, U32.modulus. lia. Qed.

Lemma reachable_turning : reachable turning_state.
Proof.
  unfold turning_state.
  repeat (apply reach_exti; [|apply in_range_dec; lia..]).
  apply reach_init.
Qed.

Lemma reachable_slow : reachable slow_state.
Proof.
  unfold slow_state.
  repeat match goal with
  | |- reachable (exec (fan_get_filtered_rpm ?t) ?s) =>
      apply (reach_rpm s t 1000);
        [|apply in_range_dec; lia | now vm_compute]
  end.
  apply reachable_turning.
Qed.

Lemma reachable_demand : reachable demand_state.
Proof. apply reach_target; [apply reach_init | apply in_range_dec; lia]. Qed.

Lemma reachable_saturated : reachable saturated_state.
Proof.
  apply (reach_pi demand_state 2000);
    [apply reachable_demand | apply in_range_dec; lia | now vm_compute].
Qed.

Lemma cycle_defined_iff_witness :
  reachable restart_state
  /\ fan_update_pi_controller 2147483 restart_state = None
  /\ exists s', fan_update_pi_controller 2147483 turning_state = Some (tt, s').
Proof.
  assert (Hr : reachable restart_state).
  { apply reach_exti; [apply reach_init | apply in_range_dec; lia..]. }
  split; [exact Hr|]. split.
  - destruct (cycle_defined_iff 2147483 restart_state Hr) as (_ & Hpi).
    apply Hpi. now split.
  - destruct (cycle_defined_iff 2147483 turning_state reachable_turning)
      as (_ & Hpi).
    destruct (fan_update_pi_controller 2147483 turning_state) as [[[] s']|].
    + now exists s'.
    + destruct (proj1 Hpi eq_refl) as (_ & E). discriminate E.
Defined.

Lemma stale_after_edge_witness :
  U32.add 4294967000 1001 = 705
  /\ stale 705 (HAL_GPIO_EXTI_Callback FAN_TACHO_OUTPUT 31000 4294967000
                  turning_state) = true.
Proof.
  split; [reflexivity|].
  destruct (stale_after_edge 31000 4294967000 1001 turning_state
              ltac:(apply in_range_dec; lia) ltac:(lia)) as (Hs & _).
  apply Hs. lia.
Defined.

Lemma first_edge_period_witness :
  g_u32_time_diff
    (HAL_GPIO_EXTI_Callback FAN_TACHO_OUTPUT 1000 10 boot_state) = 1000
  /\ fst <$> fan_get_filtered_rpm 15
        (HAL_GPIO_EXTI_Callback FAN_TACHO_OUTPUT 1000 10 boot_state)
      = Some 30000.
Proof.
  destruct (@first_edge_period spec_median 1000 10 5 (Median.init 5) ltac:(lia)
              ltac:(apply in_range_dec; lia) ltac:(lia)) as (Hd & Hrun).
  split; [exact Hd|].
  change (U32.add 10 5) with 15 in Hrun.
  unfold boot_state. rewrite Hrun. reflexivity.
Defined.

Lemma duty_never_exceeds_period_witness :
  reachable saturated_state
  /\ g_fan_tim9_period saturated_state = 399
  /\ 0 <= g_fan_tim9_ccr1 saturated_state
          <= g_fan_tim9_period saturated_state + 1.
Proof.
  split; [exact reachable_saturated|].
  exact (duty_never_exceeds_period saturated_state reachable_saturated).
Defined.

Lemma integral_stays_a_number_witness :
  reachable saturated_state
  /\ f_esum saturated_state <> S754_nan
  /\ f_esum saturated_state <> S754_zero true.
Proof.
  split; [exact reachable_saturated|].
  exact (integral_stays_a_number saturated_state reachable_saturated).
Defined.

Lemma zero_error_holds_integral_witness :
  reachable on_target_state
  /\ g_u32_target_rpm on_target_state = 1000
  /\ fst <$> fan_get_filtered_rpm 44 on_target_state = Some 1000
  /\ exists s2, fan_update_pi_controller 44 on_target_state = Some (tt, s2)
       /\ f_esum s2 = f_esum on_target_state.
Proof.
  assert (Hr : reachable on_target_state).
  { apply reach_target; [apply reachable_slow | apply in_range_dec; lia]. }
  split; [exact Hr|]. split; [reflexivity|]. split; [reflexivity|].
  destruct (fan_get_filtered_rpm 44 on_target_state) as [[r s1]|] eqn:Hrun;
    [|discriminate Hrun].
  assert (Hrv : r = 1000) by (vm_compute in Hrun; congruence).
  subst r.
  exact (proj2 (zero_error_holds_integral 44 on_target_state s1 Hr Hrun)).
Defined.

Lemma two_edges_give_sample_witness :
  U32.add 4294960000 12000 = 4704
  /\ g_u32_time_diff
       (HAL_GPIO_EXTI_Callback FAN_TACHO_OUTPUT 4704 60
          (HAL_GPIO_EXTI_Callback FAN_TACHO_OUTPUT 4294960000 50 boot_state))
     = 12000
  /\ fst <$> fan_get_filtered_rpm 61
       (HAL_GPIO_EXTI_Callback FAN_TACHO_OUTPUT 4704 60
          (HAL_GPIO_EXTI_Callback FAN_TACHO_OUTPUT 4294960000 50 boot_state))
     = Some 2500.
Proof.
  split; [reflexivity|].
  destruct (two_edges_give_sample 4294960000 12000 50 60 1 boot_state
              ltac:(apply in_range_dec; lia) ltac:(lia)
              ltac:(apply in_range_dec; lia) ltac:(lia)) as (Hd & Hrun).
  split; [exact Hd|].
  change (U32.add 4294960000 12000) with 4704 in Hrun.
  change (U32.add 60 1) with 61 in Hrun.
  rewrite Hrun. reflexivity.
Defined.

Lemma get_val_returns_channel_average_witness :
  arrays_ok ramp_state
  /\ potis_dma_get_val POTI_2 ramp_state
     = Some (100, set_filtered_data [99; 100] ramp_state)
  /\ potis_dma_get_val 2 ramp_state = Some (0, ramp_state).
Proof.
  assert (Hok : arrays_ok ramp_state) by (now split).
  split; [exact Hok|]. split.
  - rewrite (get_val_returns_channel_average POTI_2 ramp_state Hok) by easy.
    reflexivity.
  - rewrite (get_val_returns_channel_average 2 ramp_state Hok) by easy.
    reflexivity.
Defined.

Lemma filter_data_idempotent_witness :
  arrays_ok ramp_state
  /\ potis_dma_filter_data ramp_state
     = Some (set_filtered_data [99; 100] ramp_state)
  /\ potis_dma_filter_data (set_filtered_data [99; 100] ramp_state)
     = Some (set_filtered_data [99; 100] ramp_state)
  /\ potis_dma_filter_data (set_filtered_data [4095; 0] ramp_state)
     = Some (set_filtered_data [99; 100] ramp_state).
Proof.
  assert (Hok : arrays_ok ramp_state) by (now split).
  assert (Hrun : potis_dma_filter_data ramp_state
                 = Some (set_filtered_data [99; 100] ramp_state))
    by reflexivity.
  split; [exact Hok|]. split; [exact Hrun|].
  destruct (filter_data_idempotent ramp_state _ Hok Hrun)
    as (_ & _ & Hagain & Hany).
  split; [exact Hagain|]. now apply Hany.
Defined.

Lemma average_within_samples_witness :
  arrays_ok ramp_state
  /\ Forall (fun x => 0 <= x <= 198) (channel POTI_1 (u32_potis_data ramp_state))
  /\ exists v p', potis_dma_get_val POTI_1 ramp_state = Some (v, p')
       /\ v = total (channel POTI_1 (u32_potis_data ramp_state)) / 100
       /\ 0 <= v <= 198.
Proof.
  assert (Hok : arrays_ok ramp_state) by (now split).
  assert (Hall : Forall (fun x => 0 <= x <= 198)
                   (channel POTI_1 (u32_potis_data ramp_state))).
  { apply Forall_forall. intros x Hx.
    assert (Hin : x ∈ seqZ 0 199).
    { revert x Hx. apply Forall_forall.
      apply (bool_decide_unpack _). vm_compute. exact I. }
    apply elem_of_seqZ in Hin. lia. }
  split; [exact Hok|]. split; [exact Hall|].
  exact (average_within_samples POTI_1 ramp_state 0 198 Hok
           (or_introl eq_refl) Hall ltac:(lia) ltac:(lia)).
Defined.

Lemma rpm_sample_ceiling_witness :
  U32.in_range 2147483649 /\ u32_rpm 2147483649 = Some 30000000
  /\ 0 <= 30000000 <= 30000000.
Proof.
  assert (Hp : U32.in_range 2147483649) by (apply in_range_dec; lia).
  split; [exact Hp|]. split; [reflexivity|].
  exact (rpm_sample_ceiling 2147483649 30000000 Hp eq_refl).
Defined.

Lemma rpm_sample_antitone_witness :
  u32_rpm 6000 = Some (30000000 / 6000)
  /\ u32_rpm 40000000 = Some (30000000 / 40000000)
  /\ 0 <= 30000000 / 40000000 <= 30000000 / 6000
  /\ (30000000 / 40000000 = 0 <-> 30000000 < 40000000).
Proof.
  exact (rpm_sample_antitone 6000 40000000 ltac:(lia) ltac:(lia)).
Defined.

Lemma adc_to_rpm_scale_witness :
  exists ra rb,
    MAIN_CONVERT_ADC_TO_RPM 2048 FAN_MAX_RPM ADC_12_BIT_RESOLUTION = Some ra
    /\ MAIN_CONVERT_ADC_TO_RPM 4095 FAN_MAX_RPM ADC_12_BIT_RESOLUTION
       = Some rb
    /\ 0 <= ra <= rb /\ rb <= FAN_MAX_RPM
    /\ (rb = FAN_MAX_RPM <-> 4095 = ADC_12_BIT_RESOLUTION)
    /\ (ra = 0 <-> 2048 = 0).
Proof.
  exact (adc_to_rpm_scale 2048 4095 ltac:(lia) ltac:(reflexivity)).
Defined.


Lemma main_loop_reads_filter_twice_witness :
  reachable turning_state /\ arrays_ok half_scale_state
  /\ u32_rpm (g_u32_time_diff turning_state) = Some 1000
  /\ u32_rpm (g_u32_time_diff (run_edges [speed_up_edge] turning_state))
     = Some 5000
  /\ exists tar s' p',
       main_loop_with_edges 41 42 [] [speed_up_edge]
         (turning_state, half_scale_state)
       = Some ((tar, 5000), (s', p'))
       /\ g_median s'
          = Median.insert 5000 (Median.insert 1000 (Median.init 5)).
Proof.
  assert (Hok : arrays_ok half_scale_state) by (now split).
  split; [exact reachable_turning|]. split; [exact Hok|].
  split; [reflexivity|]. split; [reflexivity|].
  exact (proj1 (main_loop_reads_filter_twice 41 42 [] [speed_up_edge]
           turning_state half_scale_state 1000 5000 reachable_turning Hok
           eq_refl ltac:(discriminate) eq_refl
           eq_refl ltac:(discriminate) eq_refl)).
Defined.
